(** * Heterogeneous R-GCN layer of the ACM tutorial (data/ACM/5_hetero.ipynb)

    A shallow embedding of the notebook's [HeteroRGCNLayer], [HeteroRGCN]
    and label generation.  Tensors hold exact rationals ([Qc]); the graph
    container is DGL's heterograph, of which the notebook uses only the
    feature store, [canonical_etypes], [ntypes], [etypes] and
    [multi_update_all]. *)

From Stdlib Require Import QArith Qcanon.
From stdpp Require Import gmap strings list fin_maps.

Open Scope string_scope.
Open Scope list_scope.

(** ** Errors and the result type

    A raised exception ends the pass; the graph it leaves behind is not
    modelled, only the graph of a pass that returns. *)

Inductive error :=
  | KeyError            (* Python dict / ModuleDict lookup of an absent key *)
  | IndexError          (* array index out of bounds *)
  | MissingFeature
  | AmbiguousRelation
  | UnknownRelation
  | UnknownType
  | ShapeMismatch
  | OutOfRange.

Inductive result (A : Type) :=
  | OK (a : A)
  | Err (e : error).
Arguments OK {A} a.
Arguments Err {A} e.

Global Instance error_eq_dec : EqDecision error.
Proof. solve_decision. Defined.

Global Instance result_eq_dec `{EqDecision A} : EqDecision (result A).
Proof. solve_decision. Defined.

Global Instance result_ret : MRet result := λ A a, OK a.

Global Instance result_bind : MBind result := λ A B k r,
  match r with
  | OK a => k a
  | Err e => Err e
  end.

Global Instance result_fmap : FMap result := λ A B f r,
  match r with
  | OK a => OK (f a)
  | Err e => Err e
  end.

Definition of_option {A} (e : error) (o : option A) : result A :=
  match o with
  | Some a => OK a
  | None => Err e
  end.

(** ** Dense 2-D tensors *)

Record Tensor := mkTensor {
  ncols : nat;
  rows : list (list Qc)
}.

Global Instance Tensor_eq_dec : EqDecision Tensor.
Proof. solve_decision. Defined.

Definition shape (t : Tensor) : nat * nat := (length (rows t), ncols t).

(** The stored rows really have the declared width. *)
Definition tensor_wf (t : Tensor) : Prop :=
  Forall (λ r, length r = ncols t) (rows t).

Definition vzero (d : nat) : list Qc := replicate d 0%Qc.

Definition vadd (x y : list Qc) : list Qc := zip_with Qcplus x y.

Definition vsum (d : nat) (xs : list (list Qc)) : list Qc :=
  foldl vadd (vzero d) xs.

Definition dot (x w : list Qc) : Qc :=
  foldl Qcplus 0%Qc (zip_with Qcmult x w).

(** ** torch.nn.Linear

    Modelled from the spec: PyTorch's [nn.Linear] (§4.3: a dense linear
    transform with a bias); PyTorch is an external library. *)

Record Linear := mkLinear {
  in_features : nat;
  out_features : nat;
  lin_weight : list (list Qc);   (* out_features rows of in_features entries *)
  lin_bias : list Qc             (* out_features entries *)
}.

Definition linear_wf (l : Linear) : Prop :=
  length (lin_weight l) = out_features l ∧
  length (lin_bias l) = out_features l ∧
  Forall (λ w, length w = in_features l) (lin_weight l).

Definition linear_row (l : Linear) (x : list Qc) : list Qc :=
  zip_with (λ w b, (dot x w + b)%Qc) (lin_weight l) (lin_bias l).

(** [y = x Wᵀ + b]; the last dimension of [x] must be [in_features]. *)
Definition Linear_forward (l : Linear) (x : Tensor) : result Tensor :=
  if decide (ncols x = in_features l)
  then OK (mkTensor (out_features l) (map (linear_row l) (rows x)))
  else Err ShapeMismatch.

(** [torch.nn.Linear(in_size, out_size)]: parameters drawn from a random
    source [rng], weight first, then bias. *)
Definition nn_Linear (rng : nat → Qc) (in_size out_size : nat) : Linear :=
  mkLinear in_size out_size
    (map (λ j, map (λ i, rng (j * in_size + i)) (seq 0 in_size)) (seq 0 out_size))
    (map (λ j, rng (out_size * in_size + j)) (seq 0 out_size)).

(** Modelled from the spec: [torch.nn.functional.leaky_relu] with its
    default [negative_slope = 0.01] (§4.4, step 2):
    [max(0, x) + negative_slope * min(0, x)]. *)
Definition negative_slope : Qc := Q2Qc (1 # 100).

Definition leaky_relu (x : Qc) : Qc :=
  if decide (0 ≤ x)%Qc then x else (negative_slope * x)%Qc.

Definition tmap (f : Qc → Qc) (t : Tensor) : Tensor :=
  mkTensor (ncols t) (map (map f) (rows t)).

Definition tadd (a b : Tensor) : Tensor :=
  mkTensor (ncols a) (zip_with vadd (rows a) (rows b)).

(** ** Monadic list traversals in [result] *)

Fixpoint foldM {A B} (f : A → B → result A) (a : A) (l : list B) : result A :=
  match l with
  | [] => OK a
  | b :: l' => a' ← f a b; foldM f a' l'
  end.

Fixpoint mapR {A B} (f : A → result B) (l : list A) : result (list B) :=
  match l with
  | [] => OK []
  | a :: l' => b ← f a; bs ← mapR f l'; OK (b :: bs)
  end.

(** ** Python dictionaries with insertion order

    [d[k] = v] replaces the value of an existing key in place and appends a
    new key at the end. *)
Fixpoint dict_set {V} (k : string) (v : V) (d : list (string * V)) : list (string * V) :=
  match d with
  | [] => [(k, v)]
  | (k', v') :: d' =>
      if decide (k' = k) then (k, v) :: d' else (k', v') :: dict_set k v d'
  end.

(** ** The heterograph container *)

Definition cetype : Type := string * string * string.

Definition src_type (c : cetype) : string := c.1.1.
Definition rel_name (c : cetype) : string := c.1.2.
Definition dst_type (c : cetype) : string := c.2.

Record HeteroGraph := mkGraph {
  ntypes : list string;
  num_nodes : gmap string nat;
  canonical_etypes : list cetype;
  edges : gmap cetype (list (nat * nat));
  ndata : gmap (string * string) Tensor   (* (node type, feature name) *)
}.

Definition etypes (G : HeteroGraph) : list string :=
  map rel_name (canonical_etypes G).

Definition with_ndata (G : HeteroGraph) (nd : gmap (string * string) Tensor) : HeteroGraph :=
  mkGraph (ntypes G) (num_nodes G) (canonical_etypes G) (edges G) nd.

(** The invariants of §3 of the specification, in a form that can be
    decided on a concrete graph. *)
Definition edges_ok (G : HeteroGraph) (c : cetype) : Prop :=
  match edges G !! c, num_nodes G !! src_type c, num_nodes G !! dst_type c with
  | Some es, Some ns, Some nd => Forall (λ e : nat * nat, e.1 < ns ∧ e.2 < nd) es
  | _, _, _ => False
  end.

Definition graph_wf (G : HeteroGraph) : Prop :=
  NoDup (ntypes G) ∧ NoDup (canonical_etypes G) ∧
  Forall (λ t, is_Some (num_nodes G !! t)) (ntypes G) ∧
  Forall (λ c, src_type c ∈ ntypes G ∧ dst_type c ∈ ntypes G ∧ edges_ok G c)
         (canonical_etypes G).

Global Instance edges_ok_dec G c : Decision (edges_ok G c).
Proof.
  unfold edges_ok.
  destruct (edges G !! c), (num_nodes G !! src_type c), (num_nodes G !! dst_type c);
    apply _.
Defined.

Global Instance graph_wf_dec G : Decision (graph_wf G).
Proof. unfold graph_wf. apply _. Defined.

(** Modelled from the spec: DGL's [number_of_nodes] (§4.1 [num_nodes]); DGL
    is an external library whose code is not part of the repository. *)
Definition number_of_nodes (G : HeteroGraph) (t : string) : result nat :=
  of_option UnknownType (num_nodes G !! t).

(** Modelled from the spec: DGL's [G.nodes[t].data[name] = M] (§4.1
    [set_node_feature]): [M] must have [n_t] rows; writes replace. *)
Definition set_node_feature (G : HeteroGraph) (t name : string) (M : Tensor)
  : result HeteroGraph :=
  n ← number_of_nodes G t;
  if decide (length (rows M) = n)
  then OK (with_ndata G (<[(t, name) := M]> (ndata G)))
  else Err ShapeMismatch.

(** Modelled from the spec: DGL's [G.nodes[t].data[name]] (§4.1
    [get_node_feature]): reads require a prior write. *)
Definition get_node_feature (G : HeteroGraph) (t name : string) : result Tensor :=
  of_option MissingFeature (ndata G !! (t, name)).

(** Modelled from the spec: resolution of a relation name to its canonical
    edge type (§4.1 Constraints): allowed only when the name appears in
    exactly one canonical edge type. *)
Definition to_canonical_etype (G : HeteroGraph) (r : string) : result cetype :=
  match filter (λ c, rel_name c = r) (canonical_etypes G) with
  | [] => Err UnknownRelation
  | [c] => OK c
  | _ => Err AmbiguousRelation
  end.

(** Message and reduce primitives of [dgl.function] used by the notebook. *)
Inductive message_fn := copy_u (src_field out_field : string).
Inductive reduce_fn := mean (msg_field out_field : string).

Definition funcs_t : Type := list (string * (message_fn * reduce_fn)).

Definition Qc_of_nat (n : nat) : Qc := Q2Qc (inject_Z (Z.of_nat n)).

(** Modelled from the spec: the [mean] reducer (§4.2, §4.3): [sum /
    max(count, 1)] over the messages of width [d] arriving at one node. *)
Definition mean_reduce (d : nat) (msgs : list (list Qc)) : list Qc :=
  map (λ a, (a / Qc_of_nat (length msgs `max` 1))%Qc) (vsum d msgs).

(** Modelled from the spec: [copy_src] (§4.2): the message on edge [(u, v)]
    is row [u] of the source feature; here, the messages arriving at [v]. *)
Definition in_messages (F : Tensor) (es : list (nat * nat)) (v : nat)
  : result (list (list Qc)) :=
  mapR (λ e : nat * nat, of_option OutOfRange (rows F !! e.1))
       (filter (λ e : nat * nat, e.2 = v) es).

(** Modelled from the spec: step 1 of [multi_update_all] (§4.2) for one
    relation: the aggregate [A_(s,r,d)[v]] for every [v ∈ [0, n_d)], tagged
    with the destination type and the destination feature name. *)
Definition relation_aggregate (G : HeteroGraph) (kf : string * (message_fn * reduce_fn))
  : result (string * string * Tensor) :=
  let '(r, (copy_u src_field m, mean m' out_field)) := kf in
  c ← to_canonical_etype G r;
  F ← get_node_feature G (src_type c) src_field;
  if decide (m = m') then
    nd ← number_of_nodes G (dst_type c);
    es ← of_option UnknownRelation (edges G !! c);
    A ← mapR (λ v, msgs ← in_messages F es v; OK (mean_reduce (ncols F) msgs)) (seq 0 nd);
    OK (dst_type c, out_field, mkTensor (ncols F) A)
  else Err MissingFeature.

(** Modelled from the spec: step 2 of [multi_update_all] with
    [cross_reducer = sum] (§4.2): element-wise sum of the aggregates that
    target the same destination feature; dimensions must be equal. *)
Definition cross_sum (acc : gmap (string * string) Tensor)
    (a : string * string * Tensor) : result (gmap (string * string) Tensor) :=
  let '(d, name, A) := a in
  match acc !! (d, name) with
  | None => OK (<[(d, name) := A]> acc)
  | Some B =>
      if decide (shape A = shape B)
      then OK (<[(d, name) := tadd B A]> acc)
      else Err ShapeMismatch
  end.

(** Modelled from the spec: [G.multi_update_all(funcs, 'sum')] (§4.2, steps
    1 to 4); the notebook passes no other cross-reducer. *)
Definition multi_update_all (funcs : funcs_t) (G : HeteroGraph) : result HeteroGraph :=
  aggs ← mapR (relation_aggregate G) funcs;
  merged ← foldM cross_sum ∅ aggs;
  OK (with_ndata G (merged ∪ ndata G)).

(** ** HeteroRGCNLayer *)

Record HeteroRGCNLayer := mkLayer {
  weight : gmap string Linear     (* nn.ModuleDict: W_r for each relation *)
}.

(** [__init__]: [{name : nn.Linear(in_size, out_size) for name in etypes}];
    the [k]-th constructed module draws from [rng k]. *)
Definition HeteroRGCNLayer_init (rng : nat → nat → Qc) (in_size out_size : nat)
    (names : list string) : HeteroRGCNLayer :=
  mkLayer (foldl (λ (m : gmap string Linear) (kn : nat * string),
                    <[kn.2 := nn_Linear (rng kn.1) in_size out_size]> m)
                 ∅ (imap (λ k n, (k, n)) names)).

(** ['Wh_%s' % etype] *)
Definition scratch_name (etype : string) : string := "Wh_" +:+ etype.

(** One iteration of the loop over [G.canonical_etypes]. *)
Definition forward_step (L : HeteroRGCNLayer) (feat_dict : gmap string Tensor)
    (st : HeteroGraph * funcs_t) (c : cetype) : result (HeteroGraph * funcs_t) :=
  let '(G, funcs) := st in
  let '(srctype, etype, dsttype) := c in
  lin ← of_option KeyError (weight L !! etype);
  x ← of_option KeyError (feat_dict !! srctype);
  Wh ← Linear_forward lin x;
  G' ← set_node_feature G srctype (scratch_name etype) Wh;
  OK (G', dict_set etype (copy_u (scratch_name etype) "m", mean "m" "h") funcs).

(** [forward] up to and including [G.multi_update_all(funcs, 'sum')]. *)
Definition forward_update (L : HeteroRGCNLayer) (G : HeteroGraph)
    (feat_dict : gmap string Tensor) : result HeteroGraph :=
  '(G1, funcs) ← foldM (forward_step L feat_dict) (G, []) (canonical_etypes G);
  multi_update_all funcs G1.

(** [{ntype : G.nodes[ntype].data['h'] for ntype in G.ntypes}] *)
Definition collect_h (G : HeteroGraph) : result (gmap string Tensor) :=
  foldM (λ (out : gmap string Tensor) ntype,
           h ← get_node_feature G ntype "h"; OK (<[ntype := h]> out))
        ∅ (ntypes G).

(** [HeteroRGCNLayer.forward(G, feat_dict)]: the returned dictionary and the
    graph as the call leaves it. *)
Definition forward (L : HeteroRGCNLayer) (G : HeteroGraph)
    (feat_dict : gmap string Tensor) : result (gmap string Tensor * HeteroGraph) :=
  G2 ← forward_update L G feat_dict;
  out ← collect_h G2;
  OK (out, G2).

(** ** HeteroRGCN *)

Record HeteroRGCN := mkModel {
  embed : gmap string Tensor;      (* nn.ParameterDict *)
  layer1 : HeteroRGCNLayer;
  layer2 : HeteroRGCNLayer
}.

(** [HeteroRGCN.forward(G)] *)
Definition HeteroRGCN_forward (M : HeteroRGCN) (G : HeteroGraph)
  : result (Tensor * HeteroGraph) :=
  '(h_dict, G1) ← forward (layer1 M) G (embed M);
  let h_dict := tmap leaky_relu <$> h_dict in
  '(h_dict, G2) ← forward (layer2 M) G1 h_dict;
  logits ← of_option KeyError (h_dict !! "paper");
  OK (logits, G2).



(** * Label generation (cell 22) *)

(** NumPy integer arrays live in an arena; a location is an index into it,
    so that two names for one array share its updates.  The SciPy and NumPy
    operations of the cell ([tocsr], [indices], column selection, [tocoo],
    masked assignment) follow the documented CSR layout: row [i] of the
    matrix is [indices[indptr[i] : indptr[i+1]]]. *)
Definition arena : Type := list (list Z).

Definition alloc (arr : list Z) (h : arena) : nat * arena := (length h, h ++ [arr]).

(** A sparse 0/1 matrix given by rows: row [i] lists the columns of its
    stored entries. *)
Definition sparse : Type := list (list Z).

(** A SciPy CSR matrix; only [indices] is ever shared, so it alone is held
    by reference. *)
Record csr_matrix := mkCsr {
  csr_nrows : nat;
  csr_ncols : nat;
  indptr : list nat;
  indices : nat        (* location of the column-index array *)
}.

Fixpoint row_pointers (s : nat) (M : sparse) : list nat :=
  s :: match M with
       | [] => []
       | r :: M' => row_pointers (s + length r) M'
       end.

(** [M.tocsr()]: a new CSR matrix with freshly allocated arrays. *)
Definition tocsr (M : sparse) (n_cols : nat) (h : arena) : csr_matrix * arena :=
  let '(l, h') := alloc (concat M) h in
  (mkCsr (length M) n_cols (row_pointers 0 M) l, h').

Definition csr_row (h : arena) (m : csr_matrix) (i : nat) : option (list Z) :=
  idx ← h !! indices m;
  a ← indptr m !! i;
  b ← indptr m !! S i;
  Some (take (b - a) (drop a idx)).

(** The matrix a CSR value stands for, by rows. *)
Definition csr_rows (h : arena) (m : csr_matrix) : option sparse :=
  mapM (csr_row h m) (seq 0 (csr_nrows m)).

(** [m[:, cols].tocoo()]: the stored entries of the selected columns as
    (row, new column) pairs, by rows; the result shares nothing with [m]. *)
Definition column_select_coo (h : arena) (m : csr_matrix) (cols : list Z)
  : option (list (nat * nat)) :=
  rs ← csr_rows h m;
  Some (concat (imap (λ i r,
          omap (λ j, k ← list_find (λ c, c = j) cols; Some (i, k.1)) r) rs)).

(** [arr[arr == a] = b], in place. *)
Definition masked_assign (l : nat) (a b : Z) (h : arena) : option arena :=
  arr ← h !! l;
  Some (<[l := map (λ x, if decide (x = a) then b else x) arr]> h).

Definition c_selected : list Z := [0; 11; 13]%Z.   (* KDD, ICML, VLDB *)

Record cell22_state := mkCell22 {
  st_arena : arena;
  st_pvc : csr_matrix;
  st_labels_alias : nat;       (* [labels = pvc.indices], before [torch.tensor] *)
  st_labels : list Z;          (* [torch.tensor(labels).long()], a copy *)
  st_pid : list nat;
  st_train_idx : list nat;
  st_val_idx : list nat;
  st_test_idx : list nat
}.

(** Cell 22, with [data['PvsC']] given by rows and [np.random.permutation]
    given as [permutation]. *)
Definition cell22 (permutation : list nat → list nat) (PvsC : sparse) (n_conf : nat)
  : option cell22_state :=
  let '(pvc, h) := tocsr PvsC n_conf [] in
  p_selected ← column_select_coo h pvc c_selected;
  let labels := indices pvc in
  h ← masked_assign labels 11 1 h;
  h ← masked_assign labels 13 2 h;
  labels_tensor ← h !! labels;
  let pid := p_selected.*1 in
  let shuffle := permutation pid in
  Some (mkCell22 h pvc labels labels_tensor pid
          (take 800 shuffle) (take 100 (drop 800 shuffle)) (drop 900 shuffle)).

(** * The training loop (cell 28) *)

(** The loop of cell 28 over PyTorch's tensor operations (an external
    library): indexing with an index tensor, [argmax], [==], [mean],
    [cross_entropy], [<] and [item].  The optimizer is a parameter of the
    model of the loop. *)

(** The value of a 0-dimensional float tensor: an exact number, or
    not-a-number (PyTorch's [mean] of an empty tensor). *)
Inductive fval := Num (x : Qc) | NaN.

(** [best_val_acc] and [best_test_acc] start as the Python integer 0 and
    become 0-dimensional tensors on their first update. *)
Inductive py_num := PyInt (z : Z) | PyTensor (v : fval).

Inductive exn :=
  | Raised (e : error)
  | AttributeError.      (* ['int' object has no attribute 'item'] *)

Inductive run (A : Type) :=
  | Ret (a : A)
  | Raise (e : exn).
Arguments Ret {A} a.
Arguments Raise {A} e.

Global Instance fval_eq_dec : EqDecision fval.
Proof. solve_decision. Defined.

Global Instance py_num_eq_dec : EqDecision py_num.
Proof. solve_decision. Defined.

Global Instance exn_eq_dec : EqDecision exn.
Proof. solve_decision. Defined.

Global Instance run_eq_dec `{EqDecision A} : EqDecision (run A).
Proof. solve_decision. Defined.

Global Instance run_ret : MRet run := λ A a, Ret a.

Global Instance run_bind : MBind run := λ A B k r,
  match r with
  | Ret a => k a
  | Raise e => Raise e
  end.

Definition lift {A} (r : result A) : run A :=
  match r with
  | OK a => Ret a
  | Err e => Raise (Raised e)
  end.

Fixpoint foldR {A B} (f : A → B → run A) (a : A) (l : list B) : run A :=
  match l with
  | [] => Ret a
  | b :: l' => a' ← f a b; foldR f a' l'
  end.

(** [xs[idx]] with an index tensor; an index past the end raises. *)
Definition take_idx {A} (xs : list A) (idx : list nat) : result (list A) :=
  mapR (λ i, of_option IndexError (xs !! i)) idx.

(** PyTorch's [argmax] of one row: the index of the first maximal entry. *)
Fixpoint argmax_from (best_i : nat) (best : Qc) (i : nat) (r : list Qc) : nat :=
  match r with
  | [] => best_i
  | x :: r' =>
      if decide (best < x)%Qc then argmax_from i x (S i) r'
      else argmax_from best_i best (S i) r'
  end.

(** [logits.argmax(1)]; PyTorch refuses to reduce an empty dimension. *)
Definition argmax1 (logits : Tensor) : result (list nat) :=
  mapR (λ r, match r with
             | [] => Err IndexError
             | x :: r' => OK (argmax_from 0 x 1 r')
             end) (rows logits).

(** [(p == l).float().mean()] *)
Definition mean_equal (p : list nat) (l : list Z) : fval :=
  match p with
  | [] => NaN
  | _ => Num (Qc_of_nat (length (filter (λ pl : nat * Z, Z.of_nat pl.1 = pl.2) (zip p l)))
              / Qc_of_nat (length p))
  end.

(** [(pred[idx] == labels[idx]).float().mean()] *)
Definition accuracy (pred : list nat) (labels : list Z) (idx : list nat) : result fval :=
  p ← take_idx pred idx;
  l ← take_idx labels idx;
  OK (mean_equal p l).

(** What the loop takes from PyTorch without looking inside: the optimizer
    with the parameters it owns ([model_of] reads the model out of it), one
    update of them ([opt.zero_grad(); loss.backward(); opt.step()]), and the
    value of the cross-entropy, which is no rational number. *)
Record trainer (St : Type) := mkTrainer {
  model_of : St → HeteroRGCN;
  opt_step : St → St;
  cross_entropy_value : list (list Qc) → list Z → fval
}.
Arguments model_of {St} t.
Arguments opt_step {St} t.
Arguments cross_entropy_value {St} t.

Record dataset := mkDataset {
  labels : list Z;
  train_idx : list nat;
  val_idx : list nat;
  test_idx : list nat
}.

(** [F.cross_entropy(logits[idx], labels[idx])]: PyTorch wants every
    target to be a class index (or its ignored index -100), and raises an
    IndexError otherwise. *)
Definition cross_entropy {St} (tr : trainer St) (logits : Tensor) (labels : list Z)
    (idx : list nat) : result fval :=
  x ← take_idx (rows logits) idx;
  t ← take_idx labels idx;
  if decide (Forall (λ z, (0 ≤ z < Z.of_nat (ncols logits))%Z ∨ z = (-100)%Z) t)
  then OK (cross_entropy_value tr x t)
  else Err IndexError.

Record metrics := mkMetrics {
  m_loss : fval;
  m_train_acc : fval;
  m_val_acc : fval;
  m_test_acc : fval
}.

(** The first half of the loop body: from [logits = model(G)] to
    [test_acc]. *)
Definition epoch_metrics {St} (tr : trainer St) (D : dataset) (s : St) (G : HeteroGraph)
  : result (metrics * HeteroGraph) :=
  '(logits, G') ← HeteroRGCN_forward (model_of tr s) G;
  loss ← cross_entropy tr logits (labels D) (train_idx D);
  pred ← argmax1 logits;
  train_acc ← accuracy pred (labels D) (train_idx D);
  val_acc ← accuracy pred (labels D) (val_idx D);
  test_acc ← accuracy pred (labels D) (test_idx D);
  OK (mkMetrics loss train_acc val_acc test_acc, G').

(** [a < v] for [a] a Python number or a tensor and [v] a tensor; every
    comparison with not-a-number is false. *)
Definition num_lt (a : py_num) (v : fval) : bool :=
  match a, v with
  | _, NaN => false
  | PyInt z, Num y => bool_decide (Qc_of_Z z < y)%Qc
  | PyTensor NaN, Num _ => false
  | PyTensor (Num x), Num y => bool_decide (x < y)%Qc
  end.

(** [a.item()]: a Python [int] has no such method. *)
Definition item (a : py_num) : run fval :=
  match a with
  | PyInt _ => Raise AttributeError
  | PyTensor v => Ret v
  end.

(** [if best_val_acc < val_acc: best_val_acc = val_acc; best_test_acc = test_acc] *)
Definition track_best (b : py_num * py_num) (m : metrics) : py_num * py_num :=
  if num_lt b.1 (m_val_acc m)
  then (PyTensor (m_val_acc m), PyTensor (m_test_acc m))
  else b.

Record line := mkLine {
  l_epoch : nat;
  l_loss : fval;
  l_train_acc : fval;
  l_val_acc : fval;
  l_best_val_acc : fval;
  l_test_acc : fval;
  l_best_test_acc : fval
}.

Record loop_state (St : Type) := mkLoop {
  ls_opt : St;
  ls_graph : HeteroGraph;
  ls_best : py_num * py_num;     (* best_val_acc, best_test_acc *)
  ls_printed : list line
}.
Arguments mkLoop {St} _ _ _ _.
Arguments ls_opt {St} _.
Arguments ls_graph {St} _.
Arguments ls_best {St} _.
Arguments ls_printed {St} _.

(** The body of [for epoch in range(...)]. *)
Definition epoch {St} (tr : trainer St) (D : dataset) (st : loop_state St) (e : nat)
  : run (loop_state St) :=
  '(m, G') ← lift (epoch_metrics tr D (ls_opt st) (ls_graph st));
  let best := track_best (ls_best st) m in
  let s' := opt_step tr (ls_opt st) in
  printed ←
    (if decide (e mod 5 = 0) then
       bv ← item best.1;
       bt ← item best.2;
       Ret (ls_printed st ++
              [mkLine e (m_loss m) (m_train_acc m) (m_val_acc m) bv (m_test_acc m) bt])
     else Ret (ls_printed st));
  Ret (mkLoop s' G' best printed).

(** Cell 28 from [best_val_acc = 0] on, for [n_epochs] epochs. *)
Definition train_loop {St} (tr : trainer St) (D : dataset) (s0 : St) (G : HeteroGraph)
    (n_epochs : nat) : run (loop_state St) :=
  foldR (epoch tr D) (mkLoop s0 G (PyInt 0, PyInt 0) []) (seq 0 n_epochs).

(** The metrics of the first [n] epochs, one after the other. *)
Fixpoint history {St} (tr : trainer St) (D : dataset) (s : St) (G : HeteroGraph) (n : nat)
  : result (list metrics) :=
  match n with
  | 0 => OK []
  | S n' =>
      '(m, G') ← epoch_metrics tr D s G;
      ms ← history tr D (opt_step tr s) G' n';
      OK (m :: ms)
  end.

(** The names cell 28 reads from cell 22. *)
Definition dataset_of (st : cell22_state) : dataset :=
  mkDataset (st_labels st) (st_train_idx st) (st_val_idx st) (st_test_idx st).

(** * Vocabulary of the statements *)

(** Everything of a graph but its feature store. *)
Definition same_topology (G G' : HeteroGraph) : Prop :=
  ntypes G' = ntypes G ∧ num_nodes G' = num_nodes G ∧
  canonical_etypes G' = canonical_etypes G ∧ edges G' = edges G.

(** [W_r(feat[s])], the transformed source feature of a canonical edge type. *)
Definition Wh_of (L : HeteroRGCNLayer) (feat_dict : gmap string Tensor) (c : cetype)
  : result Tensor :=
  lin ← of_option KeyError (weight L !! rel_name c);
  x ← of_option KeyError (feat_dict !! src_type c);
  Linear_forward lin x.

(** The place of the feature store where the loop saves [Wh]. *)
Definition slot (c : cetype) : string * string :=
  (src_type c, scratch_name (rel_name c)).

Definition func_of (r : string) : message_fn * reduce_fn :=
  (copy_u (scratch_name r) "m", mean "m" "h").

(** The rows of the aggregate of one relation: one mean per destination node. *)
Definition aggregate_rows (F : Tensor) (es : list (nat * nat)) (nd : nat)
    (A : list (list Qc)) : Prop :=
  Forall2 (λ v row, ∃ msgs, in_messages F es v = OK msgs ∧
                            row = mean_reduce (ncols F) msgs) (seq 0 nd) A.

(** What the cross-relation sum leaves at key [k], starting from [o]. *)
Definition sum_at (k : string * string) (o : option Tensor)
    (aggs : list (string * string * Tensor)) : option Tensor :=
  foldl (λ o a, if decide (a.1 = k)
                then Some (match o with Some B => tadd B a.2 | None => a.2 end)
                else o) o aggs.

(** [T] has the shape [shp] prescribes for the destination feature [k]. *)
Definition fits (shp : string * string → nat * nat) (k : string * string)
    (T : Tensor) : Prop :=
  shape T = shp k ∧ tensor_wf T.

(** The layer owns a well-formed [in_size → out_size] linear map for every
    relation name in [names]. *)
Definition layer_ok (in_size out_size : nat) (names : list string)
    (L : HeteroRGCNLayer) : Prop :=
  Forall (λ r, match weight L !! r with
               | Some lin => linear_wf lin ∧ in_features lin = in_size ∧
                             out_features lin = out_size
               | None => False
               end) names.

(** The feature dictionary covers every source type with a tensor of shape
    [(n_s, in_size)]. *)
Definition feat_ok (G : HeteroGraph) (in_size : nat) (feat_dict : gmap string Tensor) : Prop :=
  Forall (λ c, match feat_dict !! src_type c, num_nodes G !! src_type c with
               | Some x, Some n => shape x = (n, in_size)
               | _, _ => False
               end) (canonical_etypes G).

(** Every node type is the destination of some canonical edge type. *)
Definition all_destinations (G : HeteroGraph) : Prop :=
  Forall (λ t, t ∈ map dst_type (canonical_etypes G)) (ntypes G).

Global Instance linear_wf_dec l : Decision (linear_wf l).
Proof. unfold linear_wf. apply _. Defined.

Global Instance layer_ok_dec i o names L : Decision (layer_ok i o names L).
Proof.
  unfold layer_ok. apply Forall_dec. intros r. destruct (weight L !! r); apply _.
Defined.

Global Instance feat_ok_dec G i feat : Decision (feat_ok G i feat).
Proof.
  unfold feat_ok. apply Forall_dec. intros c.
  destruct (feat !! src_type c), (num_nodes G !! src_type c); apply _.
Defined.

Global Instance all_destinations_dec G : Decision (all_destinations G).
Proof. unfold all_destinations. apply _. Defined.

(** The shape of the ['h'] feature of a node type after a layer of width
    [out_size]. *)
Definition h_shape (G : HeteroGraph) (out_size : nat) (k : string * string) : nat * nat :=
  (default 0 (num_nodes G !! k.1), out_size).

(** A node type is a destination when some canonical edge type ends in it. *)
Definition is_destination (G : HeteroGraph) (t : string) : Prop :=
  t ∈ map dst_type (canonical_etypes G).

(** Node [v] receives no message under the relation that [r] names. *)
Definition no_incoming (G : HeteroGraph) (r : string) (v : nat) : Prop :=
  match to_canonical_etype G r with
  | OK c => match edges G !! c with
            | Some es => Forall (λ e : nat * nat, e.2 ≠ v) es
            | None => False
            end
  | Err _ => False
  end.

Global Instance no_incoming_dec G r v : Decision (no_incoming G r v).
Proof.
  unfold no_incoming. destruct (to_canonical_etype G r) as [c|]; [|apply _].
  destruct (edges G !! c); apply _.
Defined.

(** The aggregates that target destination feature [k], in [funcs] order. *)
Definition targeting (k : string * string) (aggs : list (string * string * Tensor))
  : list Tensor :=
  (filter (λ a, a.1 = k) aggs).*2.

(** Row [v] of each tensor of a list. *)
Definition rows_at (v : nat) (Ts : list Tensor) : list (list Qc) :=
  omap (λ T, rows T !! v) Ts.

(** Every stored feature is a rectangular tensor. *)
Definition store_wf (G : HeteroGraph) : Prop :=
  map_Forall (λ _ T, tensor_wf T) (ndata G).

Global Instance tensor_wf_dec T : Decision (tensor_wf T).
Proof. unfold tensor_wf. apply _. Defined.

Global Instance store_wf_dec G : Decision (store_wf G).
Proof. unfold store_wf. apply _. Defined.


(** Shapes of the parameters of a model built for [G]. *)
Definition model_ok (G : HeteroGraph) (in_size hidden_size out_size : nat)
    (M : HeteroRGCN) : Prop :=
  layer_ok in_size hidden_size (etypes G) (layer1 M) ∧
  layer_ok hidden_size out_size (etypes G) (layer2 M) ∧
  feat_ok G in_size (embed M).

Global Instance model_ok_dec G i h o M : Decision (model_ok G i h o M).
Proof. unfold model_ok. apply _. Defined.


(** What the two masked assignments do to one column index. *)
Definition remap (c : Z) : Z :=
  if decide (c = 11%Z) then 1%Z else if decide (c = 13%Z) then 2%Z else c.

Definition split_indices (st : cell22_state) : list nat :=
  st_train_idx st ++ st_val_idx st ++ st_test_idx st.


Definition pid_of (PvsC : sparse) : list nat :=
  (concat (imap (λ i r,
     omap (λ j, k ← list_find (λ c, c = j) c_selected; Some (i, k.1)) r) PvsC)).*1.

(** Inputs on which every epoch computes its metrics: a valid graph with
    node type 'paper', parameters that keep the shapes [__init__] gave them
    whatever the optimizer did, at least one class, split indices that are
    papers with a label, and training labels that are class indices (or the
    ignored index -100). *)
Definition loop_inputs_ok {St} (tr : trainer St) (D : dataset)
    (in_size hidden_size out_size : nat) (G : HeteroGraph) : Prop :=
  graph_wf G ∧ NoDup (etypes G) ∧ all_destinations G ∧
  (∀ s, model_ok G in_size hidden_size out_size (model_of tr s)) ∧
  0 < out_size ∧
  (∃ n_paper, "paper" ∈ ntypes G ∧ num_nodes G !! "paper" = Some n_paper ∧
     Forall (λ i, i < n_paper ∧ i < length (labels D))
            (train_idx D ++ val_idx D ++ test_idx D)) ∧
  Forall (λ i, ∀ z, labels D !! i = Some z →
                 (0 ≤ z < Z.of_nat out_size)%Z ∨ z = (-100)%Z) (train_idx D).

(** Both values are tensors: [item] works on them. *)
Definition tensors (b : py_num * py_num) : Prop :=
  ∃ v t, b = (PyTensor v, PyTensor t).

(** * Scenario instances

    The graphs, layers and features of scenarios S1 and S2 of the
    specification, and further small instances the statements are run on. *)

Definition q (a : Z) (b : positive) : Qc := Q2Qc (a # b).
Definition qi (a : Z) : Qc := q a 1.

(** A linear map with identity weight and zero bias. *)
Definition identity_linear (n : nat) : Linear :=
  mkLinear n n
    (map (λ j, map (λ i, if decide (i = j) then qi 1 else qi 0) (seq 0 n)) (seq 0 n))
    (replicate n (qi 0)).

(** S1, the tiny user-movie graph of cell 4. *)
Definition ratings : HeteroGraph :=
  mkGraph ["user"; "movie"]
    (<["user" := 3]> (<["movie" := 2]> ∅))
    [("user", "+1", "movie"); ("user", "-1", "movie")]
    (<[("user", "+1", "movie") := [(0, 0); (0, 1); (1, 0)]]>
       (<[("user", "-1", "movie") := [(2, 1)]]> ∅))
    ∅.

Definition ratings_layer : HeteroRGCNLayer :=
  mkLayer (<["+1" := identity_linear 2]> (<["-1" := identity_linear 2]> ∅)).

Definition ratings_feat : gmap string Tensor :=
  <["user" := mkTensor 2 [[qi 1; qi 0]; [qi 0; qi 1]; [qi 1; qi 1]]]> ∅.

(** S2, one citing relation over three papers with the single edge (0, 1). *)
Definition citing : HeteroGraph :=
  mkGraph ["paper"]
    (<["paper" := 3]> ∅)
    [("paper", "citing", "paper")]
    (<[("paper", "citing", "paper") := [(0, 1)]]> ∅)
    ∅.

Definition citing_layer : HeteroRGCNLayer :=
  mkLayer (<["citing" := identity_linear 1]> ∅).

Definition citing_feat : gmap string Tensor :=
  <["paper" := mkTensor 1 [[qi 1]; [qi 2]; [qi 3]]]> ∅.

Ltac by_compute := apply (bool_decide_unpack _); vm_compute; exact I.

(** The state after the loop of [forward] on the user-movie graph. *)
Definition ratings_loop : result (HeteroGraph * funcs_t) :=
  foldM (forward_step ratings_layer ratings_feat) (ratings, []) (canonical_etypes ratings).

Definition ratings_after_loop : HeteroGraph * funcs_t :=
  match ratings_loop with OK st => st | Err _ => (ratings, []) end.



(** Row [v] of the ['h'] feature of 'movie' after the layer of scenario S1. *)
Definition ratings_movie_row (v : nat) : result (list Qc) :=
  G ← forward_update ratings_layer ratings ratings_feat;
  T ← get_node_feature G "movie" "h";
  of_option IndexError (rows T !! v).

Definition ratings_aggregates : list (string * string * Tensor) :=
  match mapR (relation_aggregate ratings_after_loop.1) ratings_after_loop.2 with
  | OK aggs => aggs
  | Err _ => []
  end.

Definition ratings_updated : HeteroGraph :=
  match multi_update_all ratings_after_loop.2 ratings_after_loop.1 with
  | OK G => G
  | Err _ => ratings
  end.

(** Two canonical edge types that share source type and relation name. *)
Definition two_targets_graph : HeteroGraph :=
  mkGraph ["user"; "movie"; "book"]
    (<["user" := 3]> (<["movie" := 2]> (<["book" := 1]> ∅)))
    [("user", "rates", "movie"); ("user", "rates", "book")]
    (<[("user", "rates", "movie") := [(0, 0); (1, 1)]]>
       (<[("user", "rates", "book") := [(2, 0)]]> ∅))
    ∅.

Definition two_targets_layer : HeteroRGCNLayer :=
  HeteroRGCNLayer_init (λ _ _, qi 0) 2 2 (etypes two_targets_graph).


(** Two canonical edge types that share a relation name and differ in both
    endpoint types; every node type is a destination. *)
Definition links_graph : HeteroGraph :=
  mkGraph ["author"; "paper"]
    (<["author" := 2]> (<["paper" := 2]> ∅))
    [("author", "links", "paper"); ("paper", "links", "author")]
    (<[("author", "links", "paper") := [(0, 0); (1, 1)]]>
       (<[("paper", "links", "author") := [(0, 1)]]> ∅))
    ∅.

Definition links_layer : HeteroRGCNLayer :=
  mkLayer (<["links" := identity_linear 1]> ∅).

Definition links_feat : gmap string Tensor :=
  <["author" := mkTensor 1 [[qi 1]; [qi 2]]]>
    (<["paper" := mkTensor 1 [[qi 3]; [qi 4]]]> ∅).

(** The state after the loop of [forward] on [two_targets_graph]. *)
Definition two_targets_after_loop : HeteroGraph * funcs_t :=
  match foldM (forward_step two_targets_layer ratings_feat) (two_targets_graph, [])
          (canonical_etypes two_targets_graph) with
  | OK st => st
  | Err _ => (two_targets_graph, [])
  end.

Definition citing_feat_other : gmap string Tensor :=
  <["author" := mkTensor 1 [[qi 7]; [qi 9]]]> citing_feat.

Definition citing_forward : gmap string Tensor * HeteroGraph :=
  match forward citing_layer citing citing_feat with
  | OK r => r
  | Err _ => (∅, citing)
  end.

(** A model for the graph of scenario S2 with one-dimensional features. *)
Definition citing_model : HeteroRGCN :=
  mkModel (<["paper" := mkTensor 1 [[qi 1]; [qi (-2)]; [qi 3]]]> ∅)
          citing_layer citing_layer.

Definition cell22_example : cell22_state :=
  match cell22 reverse [[0]; [5]; [11]; [13]]%Z 14 with
  | Some st => st
  | None => mkCell22 [] (mkCsr 0 0 [] 0) 0 [] [] [] [] []
  end.

(** The graph of scenario S2 with a stale feature on it. *)
Definition citing_stale : HeteroGraph :=
  with_ndata citing (<[("paper", "h") := mkTensor 4 [[qi 9; qi 9; qi 9; qi 9]]]> ∅).



(** A trainer that leaves the parameters alone, for running the loop. *)
Definition frozen (M : HeteroRGCN) : trainer unit :=
  mkTrainer unit (λ _, M) (λ s, s) (λ _ _, NaN).

(** A dataset for the graph of scenario S2: paper 0 trains, paper 1 tests,
    nothing validates. *)
Definition citing_data_no_val : dataset := mkDataset [0; 0; 0]%Z [0] [] [1].

(** The same with paper 2 for validation. *)
Definition citing_data : dataset := mkDataset [0; 0; 0]%Z [0] [2] [1].

Definition citing_first_metrics : metrics * HeteroGraph :=
  match epoch_metrics (frozen citing_model) citing_data_no_val () citing with
  | OK r => r
  | Err _ => (mkMetrics NaN NaN NaN NaN, citing)
  end.

Definition citing_loop : loop_state unit :=
  match train_loop (frozen citing_model) citing_data () citing 6 with
  | Ret st => st
  | Raise _ => mkLoop () citing (PyInt 0, PyInt 0) []
  end.

(** The logits of the model of scenario S2. *)
Definition citing_model_forward : Tensor * HeteroGraph :=
  match HeteroRGCN_forward citing_model citing with
  | OK r => r
  | Err _ => (mkTensor 0 [], citing)
  end.

(** A three-class model for the graph of scenario S2. *)
Definition citing_model3 : HeteroRGCN :=
  mkModel (<["paper" := mkTensor 1 [[qi 1]; [qi (-2)]; [qi 3]]]> ∅)
          citing_layer
          (mkLayer (<["citing" := mkLinear 1 3 [[qi 1]; [qi 0]; [qi (-1)]]
                                              [qi 0; qi 0; qi 0]]> ∅)).

(** Cell 22 on three papers, one of each selected conference. *)
Definition cell22_three : cell22_state :=
  match cell22 reverse [[0]; [11]; [13]]%Z 14 with
  | Some st => st
  | None => mkCell22 [] (mkCsr 0 0 [] 0) 0 [] [] [] [] []
  end.

(** * Proofs *)

(** ** Scenario data *)

Example citing_h :
  (G ← forward_update citing_layer citing citing_feat; get_node_feature G "paper" "h")
  = OK (mkTensor 1 [[qi 0]; [qi 1]; [qi 0]]).
Proof. by_compute. Qed.

Example ratings_h :
  (G ← forward_update ratings_layer ratings ratings_feat; get_node_feature G "movie" "h")
  = OK (mkTensor 2 [[q 1 2; q 1 2]; [qi 2; qi 1]]).
Proof. by_compute. Qed.

Example ratings_forward_fails :
  fst <$> forward ratings_layer ratings ratings_feat = Err MissingFeature.
Proof. by_compute. Qed.

(** With a shared relation name the call of [multi_update_all] cannot
    resolve the key of [funcs]. *)
Example links_forward_fails :
  fst <$> forward links_layer links_graph links_feat = Err AmbiguousRelation.
Proof. by_compute. Qed.

(** ** The [result] monad *)

Lemma bind_OK {A B} (r : result A) (k : A → result B) (b : B) :
  r ≫= k = OK b ↔ ∃ a, r = OK a ∧ k a = OK b.
Proof.
  destruct r as [a|e]; simpl; split.
  - intros H. by exists a.
  - by intros (a' & [= <-] & H).
  - done.
  - by intros (a' & [=] & _).
Qed.

Lemma of_option_OK {A} (e : error) (o : option A) (a : A) :
  of_option e o = OK a ↔ o = Some a.
Proof. destruct o; simpl; split; congruence. Qed.

Lemma mapR_Forall2 {A B} (f : A → result B) (l : list A) (bs : list B) :
  mapR f l = OK bs ↔ Forall2 (λ a b, f a = OK b) l bs.
Proof.
  revert bs. induction l as [|a l IH]; intros bs; simpl.
  - split.
    + intros [= <-]. constructor.
    + intros H. by inversion H.
  - rewrite bind_OK. split.
    + intros (b & Hb & H). apply bind_OK in H as (bs' & Hbs & [= <-]).
      constructor; [done|]. by apply IH.
    + intros H. inversion H as [|? b ? bs' Hb Hbs]; subst.
      exists b. split; [done|]. apply bind_OK. exists bs'.
      split; [by apply IH | done].
Qed.

Lemma mapR_total {A B} (f : A → result B) (l : list A) :
  Forall (λ a, ∃ b, f a = OK b) l → ∃ bs, mapR f l = OK bs.
Proof.
  induction 1 as [|a l [b Hb] _ [bs Hbs]]; simpl.
  - by exists [].
  - exists (b :: bs). by rewrite Hb; simpl; rewrite Hbs.
Qed.

(** ** Vectors and tensors *)

Lemma length_vzero d : length (vzero d) = d.
Proof. apply length_replicate. Qed.

Lemma length_vadd x y d :
  length x = d → length y = d → length (vadd x y) = d.
Proof. intros Hx Hy. unfold vadd. rewrite length_zip_with. lia. Qed.

Lemma length_vsum d xs :
  Forall (λ x, length x = d) xs → length (vsum d xs) = d.
Proof.
  unfold vsum. generalize (length_vzero d). generalize (vzero d).
  intros z Hz H. revert z Hz.
  induction H as [|x xs Hx _ IH]; intros z Hz; simpl; [done|].
  apply IH. by apply length_vadd.
Qed.

Lemma length_mean_reduce d msgs :
  Forall (λ x, length x = d) msgs → length (mean_reduce d msgs) = d.
Proof. intros H. unfold mean_reduce. rewrite length_map. by apply length_vsum. Qed.

Lemma vadd_vzero_l d x : length x = d → vadd (vzero d) x = x.
Proof.
  intros <-. unfold vadd, vzero.
  induction x as [|a x IH]; simpl; [done|].
  rewrite IH. f_equal. apply Qcplus_0_l.
Qed.

Lemma length_linear_row l x :
  linear_wf l → length (linear_row l x) = out_features l.
Proof.
  intros (Hw & Hb & _). unfold linear_row. rewrite length_zip_with. lia.
Qed.

Lemma Linear_forward_OK l x :
  linear_wf l → ncols x = in_features l →
  ∃ y, Linear_forward l x = OK y ∧
       shape y = (length (rows x), out_features l) ∧ tensor_wf y.
Proof.
  intros Hl Hx. unfold Linear_forward. rewrite decide_True by done.
  eexists. split; [done|]. split.
  - unfold shape; simpl. by rewrite length_map.
  - unfold tensor_wf; simpl. apply Forall_map, Forall_forall.
    intros r _. by apply length_linear_row.
Qed.

Lemma Linear_forward_inv l x y :
  Linear_forward l x = OK y →
  ncols x = in_features l ∧ y = mkTensor (out_features l) (map (linear_row l) (rows x)).
Proof. unfold Linear_forward. case_decide; [|done]. by intros [= <-]. Qed.

(** ** The loop of [forward] *)

Lemma same_topology_refl G : same_topology G G.
Proof. done. Qed.

Lemma same_topology_trans G1 G2 G3 :
  same_topology G1 G2 → same_topology G2 G3 → same_topology G1 G3.
Proof. unfold same_topology. intros (?&?&?&?) (?&?&?&?). repeat split; congruence. Qed.

Lemma same_topology_with_ndata G nd : same_topology G (with_ndata G nd).
Proof. done. Qed.

Lemma scratch_name_inj r r' : scratch_name r = scratch_name r' → r = r'.
Proof. unfold scratch_name. apply (inj (String.append "Wh_")). Qed.

Lemma slot_eq_Wh_of L feat c c' :
  slot c = slot c' → Wh_of L feat c = Wh_of L feat c'.
Proof.
  unfold slot, Wh_of. intros Heq.
  pose proof (f_equal fst Heq) as Hs. pose proof (f_equal snd Heq) as Hr.
  cbn [fst snd] in Hs, Hr. apply scratch_name_inj in Hr. by rewrite Hs, Hr.
Qed.

Lemma forward_step_OK L feat G funcs c G' funcs' :
  forward_step L feat (G, funcs) c = OK (G', funcs') ↔
  ∃ Wh, Wh_of L feat c = OK Wh ∧
        num_nodes G !! src_type c = Some (length (rows Wh)) ∧
        G' = with_ndata G (<[slot c := Wh]> (ndata G)) ∧
        funcs' = dict_set (rel_name c) (func_of (rel_name c)) funcs.
Proof.
  destruct c as [[s r] d]. unfold forward_step, Wh_of, slot, func_of,
    set_node_feature, number_of_nodes, src_type, rel_name; simpl.
  destruct (weight L !! r) as [lin|]; simpl; [|split; [done|by intros (?&?&?)]].
  destruct (feat !! s) as [x|]; simpl; [|split; [done|by intros (?&?&?)]].
  destruct (Linear_forward lin x) as [Wh|e]; simpl; [|split; [done|by intros (?&?&?)]].
  destruct (num_nodes G !! s) as [n|] eqn:Hn; simpl.
  - case_decide as Hlen; simpl.
    + split.
      * intros [= <- <-]. exists Wh. by rewrite Hlen.
      * intros (Wh' & [= <-] & _ & -> & ->). done.
    + split; [done|]. intros (Wh' & [= <-] & [= Hn'] & _). congruence.
  - split; [done|]. by intros (?&?&?&?).
Qed.

Lemma forward_loop_spec L feat cs : ∀ G funcs G1 funcs1,
  foldM (forward_step L feat) (G, funcs) cs = OK (G1, funcs1) →
  same_topology G G1 ∧
  funcs1 = foldl (λ f c, dict_set (rel_name c) (func_of (rel_name c)) f) funcs cs ∧
  (∀ c, c ∈ cs → ∃ Wh, Wh_of L feat c = OK Wh ∧ ndata G1 !! slot c = Some Wh ∧
                        num_nodes G !! src_type c = Some (length (rows Wh))) ∧
  (∀ k, k ∉ map slot cs → ndata G1 !! k = ndata G !! k).
Proof.
  induction cs as [|c cs IH]; intros G funcs G1 funcs1; simpl.
  - intros [= <- <-]. split; [done|]. split; [done|]. split; [|done].
    intros c Hc. by apply elem_of_nil in Hc.
  - rewrite bind_OK. intros ([G' funcs'] & Hstep & Hrest).
    apply forward_step_OK in Hstep as (Wh & HWh & Hn & -> & ->).
    apply IH in Hrest as (Htop & -> & Hslots & Hframe).
    split; [|split; [done|split]].
    + eapply same_topology_trans; [apply same_topology_with_ndata | done].
    + intros c' [->|Hc']%elem_of_cons.
      * exists Wh. split; [done|]. split; [|done].
        destruct (decide (slot c ∈ map slot cs)) as [Hin|Hnin].
        -- apply list_elem_of_fmap in Hin as (c'' & Heq & Hc'').
           destruct (Hslots c'' Hc'') as (Wh'' & HWh'' & Hnd & _).
           rewrite Heq, Hnd. f_equal.
           rewrite (slot_eq_Wh_of _ _ _ _ Heq) in HWh. congruence.
        -- rewrite (Hframe _ Hnin). simpl. by rewrite lookup_insert_eq.
      * destruct (Hslots c' Hc') as (Wh' & ? & ? & ?). by exists Wh'.
    + intros k Hk. rewrite not_elem_of_cons in Hk. destruct Hk as [Hne Hk].
      rewrite (Hframe _ Hk). simpl. by rewrite lookup_insert_ne.
Qed.

Lemma forward_loop_total L feat cs : ∀ G funcs,
  (∀ c, c ∈ cs → ∃ Wh, Wh_of L feat c = OK Wh ∧
                        num_nodes G !! src_type c = Some (length (rows Wh))) →
  ∃ G1 funcs1, foldM (forward_step L feat) (G, funcs) cs = OK (G1, funcs1).
Proof.
  induction cs as [|c cs IH]; intros G funcs Hcs.
  - by eexists _, _.
  - destruct (Hcs c) as (Wh & HWh & Hn); [by left|].
    set (G' := with_ndata G (<[slot c := Wh]> (ndata G))).
    set (funcs' := dict_set (rel_name c) (func_of (rel_name c)) funcs).
    destruct (IH G' funcs') as (G1 & funcs1 & H1).
    { intros c' Hc'. apply Hcs. by right. }
    exists G1, funcs1. cbn [foldM]. apply bind_OK. exists (G', funcs').
    split; [|done]. apply forward_step_OK. by exists Wh.
Qed.

(** ** The [funcs] dictionary *)

Lemma dict_set_fresh {V} k (v : V) d :
  k ∉ d.*1 → dict_set k v d = d ++ [(k, v)].
Proof.
  induction d as [|[k' v'] d IH]; simpl; [done|].
  rewrite not_elem_of_cons. intros [Hne Hk].
  rewrite decide_False by done. by rewrite IH.
Qed.

Lemma funcs_of_loop cs : ∀ funcs : funcs_t,
  NoDup (map rel_name cs) →
  (∀ c, c ∈ cs → rel_name c ∉ funcs.*1) →
  foldl (λ f c, dict_set (rel_name c) (func_of (rel_name c)) f) funcs cs
  = funcs ++ map (λ c, (rel_name c, func_of (rel_name c))) cs.
Proof.
  induction cs as [|c cs IH]; intros funcs Hnd Hfresh; simpl.
  - by rewrite app_nil_r.
  - apply NoDup_cons in Hnd as [Hc Hnd].
    rewrite dict_set_fresh by (apply Hfresh; by left).
    rewrite IH; [by rewrite <- app_assoc | done |].
    intros c' Hc'. rewrite fmap_app, elem_of_app. intros [Hin|Hin].
    + eapply Hfresh; [by right | done].
    + simpl in Hin. apply list_elem_of_singleton in Hin.
      apply Hc. rewrite <- Hin. by apply list_elem_of_fmap_2.
Qed.

Lemma filter_none {A} (P : A → Prop) `{∀ x, Decision (P x)} (l : list A) :
  (∀ x, x ∈ l → ¬ P x) → filter P l = [].
Proof.
  induction l as [|a l IH]; intros Hl; [done|].
  rewrite filter_cons_False by (apply Hl; by left).
  apply IH. intros x Hx. apply Hl. by right.
Qed.

Lemma filter_rel_name_unique (cs : list cetype) c :
  NoDup (map rel_name cs) → c ∈ cs →
  filter (λ c', rel_name c' = rel_name c) cs = [c].
Proof.
  induction cs as [|c' cs IH]; intros Hnd Hc.
  - by apply elem_of_nil in Hc.
  - simpl in Hnd. apply NoDup_cons in Hnd as [Hc' Hnd].
    apply elem_of_cons in Hc as [->|Hc].
    + rewrite filter_cons_True by done. f_equal.
      apply filter_none. intros c'' Hc'' Heq.
      apply Hc'. rewrite <- Heq. by apply list_elem_of_fmap_2.
    + rewrite filter_cons_False; [by apply IH|].
      intros Heq. apply Hc'. rewrite Heq. by apply list_elem_of_fmap_2.
Qed.

Lemma to_canonical_etype_unique G c :
  NoDup (etypes G) → c ∈ canonical_etypes G →
  to_canonical_etype G (rel_name c) = OK c.
Proof.
  intros Hnd Hc. unfold to_canonical_etype.
  by rewrite (filter_rel_name_unique _ c Hnd Hc).
Qed.

Lemma to_canonical_etype_OK G r c :
  to_canonical_etype G r = OK c → c ∈ canonical_etypes G ∧ rel_name c = r.
Proof.
  unfold to_canonical_etype.
  destruct (filter _ _) as [|c' [|? ?]] eqn:Hf; [done| |done].
  intros [= ->].
  assert (c ∈ filter (λ c', rel_name c' = r) (canonical_etypes G)) as Hin
    by (rewrite Hf; by left).
  by apply list_elem_of_filter in Hin as [? ?].
Qed.

(** ** Per-relation aggregation *)

Lemma in_messages_total F es v :
  Forall (λ e : nat * nat, e.1 < length (rows F)) es →
  ∃ msgs, in_messages F es v = OK msgs.
Proof.
  intros Hes. unfold in_messages. apply mapR_total.
  apply Forall_forall. intros e He%list_elem_of_filter.
  destruct He as [_ He]. rewrite Forall_forall in Hes.
  destruct (lookup_lt_is_Some_2 (rows F) e.1 (Hes e He)) as [x Hx].
  exists x. by rewrite Hx.
Qed.

Lemma in_messages_width F es v msgs :
  tensor_wf F → in_messages F es v = OK msgs →
  Forall (λ x, length x = ncols F) msgs.
Proof.
  intros HF. unfold in_messages. rewrite mapR_Forall2.
  generalize (filter (λ e : nat * nat, e.2 = v) es). intros l H.
  induction H as [|e x l msgs Hx _ IH]; constructor; [|done].
  apply of_option_OK in Hx. unfold tensor_wf in HF. rewrite Forall_forall in HF.
  apply HF. by eapply list_elem_of_lookup_2.
Qed.

Lemma relation_aggregate_inv G r sf m m' out d name A :
  relation_aggregate G (r, (copy_u sf m, mean m' out)) = OK (d, name, A) →
  ∃ c F nd es,
    to_canonical_etype G r = OK c ∧ ndata G !! (src_type c, sf) = Some F ∧
    m = m' ∧ num_nodes G !! dst_type c = Some nd ∧ edges G !! c = Some es ∧
    d = dst_type c ∧ name = out ∧ ncols A = ncols F ∧
    aggregate_rows F es nd (rows A).
Proof.
  unfold relation_aggregate.
  rewrite bind_OK. intros (c & Hc & H). rewrite bind_OK in H.
  destruct H as (F & HF%of_option_OK & H). case_decide as Hm; [|done].
  rewrite bind_OK in H. destruct H as (nd & Hnd%of_option_OK & H).
  rewrite bind_OK in H. destruct H as (es & Hes%of_option_OK & H).
  rewrite bind_OK in H. destruct H as (rowsA & HA & [= <- <- <-]).
  exists c, F, nd, es. do 8 (split; [done|]). simpl.
  apply mapR_Forall2 in HA. eapply Forall2_impl; [exact HA|].
  intros v row (msgs & Hmsgs & [= <-])%bind_OK. by exists msgs.
Qed.

Lemma relation_aggregate_total G r c sf m out F nd es :
  to_canonical_etype G r = OK c → ndata G !! (src_type c, sf) = Some F →
  num_nodes G !! dst_type c = Some nd → edges G !! c = Some es →
  Forall (λ e : nat * nat, e.1 < length (rows F)) es →
  ∃ A, relation_aggregate G (r, (copy_u sf m, mean m out)) = OK (dst_type c, out, A).
Proof.
  intros Hc HF Hnd Hes Hrange. unfold relation_aggregate, get_node_feature, number_of_nodes.
  rewrite Hc; simpl. rewrite HF; simpl. rewrite decide_True by done.
  rewrite Hnd; simpl. rewrite Hes; simpl.
  destruct (mapR_total
    (λ v, msgs ← in_messages F es v; OK (mean_reduce (ncols F) msgs)) (seq 0 nd))
    as [rowsA HA].
  { apply Forall_forall. intros v _.
    destruct (in_messages_total F es v Hrange) as [msgs Hmsgs].
    exists (mean_reduce (ncols F) msgs). by rewrite Hmsgs. }
  rewrite HA; simpl. by eexists.
Qed.

Lemma aggregate_rows_shape F es nd A :
  tensor_wf F → aggregate_rows F es nd A →
  length A = nd ∧ Forall (λ r, length r = ncols F) A.
Proof.
  intros HF H. split.
  - apply Forall2_length in H. by rewrite length_seq in H.
  - unfold aggregate_rows in H. induction H as [|v row vs A (msgs & Hm & ->) _ IH];
      constructor; [|done].
    apply length_mean_reduce. by eapply in_messages_width.
Qed.


(** ** The cross-relation sum *)

Lemma tadd_shape A B :
  shape A = shape B → tensor_wf A → tensor_wf B →
  shape (tadd B A) = shape B ∧ tensor_wf (tadd B A).
Proof.
  unfold shape, tensor_wf, tadd. destruct A as [da ra], B as [db rb]; simpl.
  intros [= Hlen ->] HA HB. split.
  - f_equal. rewrite length_zip_with. lia.
  - clear Hlen. revert ra HA. induction HB as [|x rb Hx _ IH]; intros ra HA; [done|].
    destruct HA as [|y ra Hy HA]; [done|]. simpl. constructor; [|by apply IH].
    by apply length_vadd.
Qed.

Lemma cross_sum_OK acc a acc' :
  cross_sum acc a = OK acc' →
  ∀ k, acc' !! k = if decide (a.1 = k)
                   then Some (match acc !! k with Some B => tadd B a.2 | None => a.2 end)
                   else acc !! k.
Proof.
  destruct a as [[d name] A]. unfold cross_sum; simpl.
  destruct (acc !! (d, name)) as [B|] eqn:HB.
  - case_decide; [|done]. intros [= <-] k. case_decide as Hk.
    + subst k. by rewrite lookup_insert_eq, HB.
    + by rewrite lookup_insert_ne.
  - intros [= <-] k. case_decide as Hk.
    + subst k. by rewrite lookup_insert_eq, HB.
    + by rewrite lookup_insert_ne.
Qed.

Lemma cross_sum_fold_lookup aggs : ∀ acc acc',
  foldM cross_sum acc aggs = OK acc' →
  ∀ k, acc' !! k = sum_at k (acc !! k) aggs.
Proof.
  induction aggs as [|a aggs IH]; intros acc acc'; simpl.
  - by intros [= <-].
  - rewrite bind_OK. intros (acc1 & H1 & Hrest) k.
    rewrite (IH _ _ Hrest k). unfold sum_at. simpl.
    by rewrite (cross_sum_OK _ _ _ H1 k).
Qed.

Lemma sum_at_notin k o aggs : k ∉ aggs.*1 → sum_at k o aggs = o.
Proof.
  revert o. induction aggs as [|a aggs IH]; intros o; [done|].
  rewrite fmap_cons, not_elem_of_cons. intros [Hne Hk].
  unfold sum_at; simpl. rewrite decide_False by done. by apply IH.
Qed.

Lemma sum_at_in k o aggs : k ∈ aggs.*1 → is_Some (sum_at k o aggs).
Proof.
  revert o. induction aggs as [|a aggs IH]; intros o.
  - intros H. by apply elem_of_nil in H.
  - intros Hk. unfold sum_at; simpl. case_decide as Ha.
    + destruct (decide (k ∈ aggs.*1)) as [Hin|Hnin].
      * by apply IH.
      * fold (sum_at k (Some (match o with Some B => tadd B a.2 | None => a.2 end)) aggs).
        by rewrite sum_at_notin.
    + apply IH. rewrite fmap_cons in Hk. apply elem_of_cons in Hk as [->|Hk]; done.
Qed.

Lemma cross_sum_fold_total shp aggs : ∀ acc : gmap (string * string) Tensor,
  Forall (λ a, fits shp a.1 a.2) aggs →
  (∀ k T, acc !! k = Some T → fits shp k T) →
  ∃ acc', foldM cross_sum acc aggs = OK acc' ∧
          (∀ k T, acc' !! k = Some T → fits shp k T).
Proof.
  induction aggs as [|a aggs IH]; intros acc Haggs Hacc.
  - by exists acc.
  - apply Forall_cons in Haggs as [[Hsa Hwa] Haggs].
    destruct a as [[d name] A]; simpl in Hsa, Hwa.
    assert (∃ acc1, cross_sum acc (d, name, A) = OK acc1 ∧
                    (∀ k T, acc1 !! k = Some T → fits shp k T)) as (acc1 & H1 & Hacc1).
    { unfold cross_sum. destruct (acc !! (d, name)) as [B|] eqn:HB.
      - destruct (Hacc _ _ HB) as [HsB HwB].
        rewrite decide_True by congruence. eexists. split; [done|].
        intros k T. rewrite lookup_insert. case_decide as Hk; [|by apply Hacc].
        intros [= <-]. subst k.
        destruct (tadd_shape A B) as [? ?]; [congruence|done|done|].
        split; [congruence|done].
      - eexists. split; [done|].
        intros k T. rewrite lookup_insert. case_decide as Hk; [|by apply Hacc].
        intros [= <-]. by subst k. }
    destruct (IH acc1 Haggs Hacc1) as (acc' & H' & Hacc').
    exists acc'. split; [|done]. cbn [foldM]. apply bind_OK. by exists acc1.
Qed.

(** ** [multi_update_all], [collect_h] and [forward] taken apart *)

Lemma multi_update_all_inv funcs G G' :
  multi_update_all funcs G = OK G' →
  ∃ aggs merged,
    mapR (relation_aggregate G) funcs = OK aggs ∧
    foldM cross_sum ∅ aggs = OK merged ∧
    G' = with_ndata G (merged ∪ ndata G).
Proof.
  unfold multi_update_all. rewrite bind_OK. intros (aggs & Haggs & H).
  rewrite bind_OK in H. destruct H as (merged & Hm & [= <-]).
  by exists aggs, merged.
Qed.

Lemma merged_lookup (aggs : list (string * string * Tensor))
    (merged nd : gmap (string * string) Tensor) (k : string * string) :
  foldM cross_sum ∅ aggs = OK merged →
  (merged ∪ nd) !! k = match sum_at k None aggs with
                       | Some T => Some T
                       | None => nd !! k
                       end.
Proof.
  intros H. pose proof (cross_sum_fold_lookup _ _ _ H k) as Hk.
  rewrite lookup_empty in Hk. rewrite <- Hk.
  destruct (merged !! k) as [T|] eqn:HT.
  - by apply lookup_union_Some_l.
  - by rewrite lookup_union_r.
Qed.

Lemma collect_loop_spec G ts : ∀ acc out : gmap string Tensor,
  foldM (λ (out : gmap string Tensor) ntype,
           h ← get_node_feature G ntype "h"; OK (<[ntype := h]> out)) acc ts = OK out →
  ∀ t, out !! t = if decide (t ∈ ts) then ndata G !! (t, "h") else acc !! t.
Proof.
  induction ts as [|t' ts IH]; intros acc out; cbn [foldM].
  - intros [= <-] t. rewrite decide_False; [done|]. intros H. by apply elem_of_nil in H.
  - rewrite bind_OK. intros (acc1 & H1 & Hrest) t.
    rewrite bind_OK in H1. destruct H1 as (h & Hh%of_option_OK & [= <-]).
    rewrite (IH _ _ Hrest t). destruct (decide (t ∈ ts)) as [Hin|Hnin].
    + rewrite decide_True; [done|by right].
    + destruct (decide (t = t')) as [->|Hne].
      * rewrite decide_True by (by left). by rewrite lookup_insert_eq.
      * rewrite decide_False by (rewrite elem_of_cons; tauto).
        by rewrite lookup_insert_ne.
Qed.

Lemma collect_h_spec G out :
  collect_h G = OK out →
  ∀ t, out !! t = if decide (t ∈ ntypes G) then ndata G !! (t, "h") else None.
Proof.
  intros H t. unfold collect_h in H. rewrite (collect_loop_spec _ _ _ _ H t).
  case_decide; [done|apply lookup_empty].
Qed.

Lemma collect_h_Some G out t :
  collect_h G = OK out → t ∈ ntypes G → is_Some (ndata G !! (t, "h")).
Proof.
  unfold collect_h. generalize (∅ : gmap string Tensor).
  induction (ntypes G) as [|t' ts IH]; intros acc H Ht; simpl in H.
  - by apply elem_of_nil in Ht.
  - rewrite bind_OK in H. destruct H as (acc1 & H1 & Hrest).
    rewrite bind_OK in H1. destruct H1 as (h & Hh%of_option_OK & _).
    apply elem_of_cons in Ht as [->|Ht]; [by exists h|]. by eapply IH.
Qed.

Lemma collect_h_total G :
  (∀ t, t ∈ ntypes G → is_Some (ndata G !! (t, "h"))) →
  ∃ out, collect_h G = OK out.
Proof.
  unfold collect_h. generalize (∅ : gmap string Tensor).
  induction (ntypes G) as [|t ts IH]; intros acc Hts.
  - by exists acc.
  - destruct (Hts t) as [h Hh]; [by left|].
    destruct (IH (<[t := h]> acc)) as [out Hout].
    { intros t' Ht'. apply Hts. by right. }
    exists out. cbn [foldM]. apply bind_OK. exists (<[t := h]> acc).
    split; [|done]. unfold get_node_feature. by rewrite Hh.
Qed.

Lemma forward_update_inv L G feat G2 :
  forward_update L G feat = OK G2 →
  ∃ G1 funcs aggs merged,
    foldM (forward_step L feat) (G, []) (canonical_etypes G) = OK (G1, funcs) ∧
    mapR (relation_aggregate G1) funcs = OK aggs ∧
    foldM cross_sum ∅ aggs = OK merged ∧
    G2 = with_ndata G1 (merged ∪ ndata G1).
Proof.
  unfold forward_update. rewrite bind_OK. intros ([G1 funcs] & Hloop & Hmu).
  apply multi_update_all_inv in Hmu as (aggs & merged & ? & ? & ?).
  by exists G1, funcs, aggs, merged.
Qed.

Lemma forward_inv L G feat out G2 :
  forward L G feat = OK (out, G2) ↔
  forward_update L G feat = OK G2 ∧ collect_h G2 = OK out.
Proof.
  unfold forward. rewrite bind_OK. split.
  - intros (G2' & Hu & H). rewrite bind_OK in H.
    by destruct H as (out' & Hc & [= <- <-]).
  - intros [Hu Hc]. exists G2. split; [done|]. by rewrite Hc.
Qed.

(** ** Valid inputs of a layer, and totality of [forward] on them *)

Lemma wf_num_nodes G : graph_wf G → ∀ t, t ∈ ntypes G → is_Some (num_nodes G !! t).
Proof. intros (_ & _ & H & _). by rewrite Forall_forall in H. Qed.

Lemma wf_edges G : graph_wf G → ∀ c, c ∈ canonical_etypes G →
  ∃ es ns nd, edges G !! c = Some es ∧
    num_nodes G !! src_type c = Some ns ∧
    num_nodes G !! dst_type c = Some nd ∧
    Forall (λ e : nat * nat, e.1 < ns ∧ e.2 < nd) es.
Proof.
  intros (_ & _ & _ & H) c Hc. rewrite Forall_forall in H.
  destruct (H c Hc) as (_ & _ & He). unfold edges_ok in He.
  destruct (edges G !! c) as [es|]; [|done].
  destruct (num_nodes G !! src_type c) as [ns|]; [|done].
  destruct (num_nodes G !! dst_type c) as [nd|]; [|done].
  by exists es, ns, nd.
Qed.

Lemma wf_endpoints G : graph_wf G → ∀ c, c ∈ canonical_etypes G →
  src_type c ∈ ntypes G ∧ dst_type c ∈ ntypes G.
Proof.
  intros (_ & _ & _ & H) c Hc. rewrite Forall_forall in H.
  destruct (H c Hc) as (? & ? & _). done.
Qed.

Lemma layer_ok_lookup i o names L r :
  layer_ok i o names L → r ∈ names →
  ∃ lin, weight L !! r = Some lin ∧ linear_wf lin ∧
         in_features lin = i ∧ out_features lin = o.
Proof.
  unfold layer_ok. rewrite Forall_forall. intros H Hr. specialize (H r Hr).
  destruct (weight L !! r) as [lin|]; [|done]. by exists lin.
Qed.

Lemma feat_ok_lookup G i feat c :
  feat_ok G i feat → c ∈ canonical_etypes G →
  ∃ x n, feat !! src_type c = Some x ∧
         num_nodes G !! src_type c = Some n ∧ shape x = (n, i).
Proof.
  unfold feat_ok. rewrite Forall_forall. intros H Hc. specialize (H c Hc).
  destruct (feat !! src_type c) as [x|]; [|done].
  destruct (num_nodes G !! src_type c) as [n|]; [|done]. by exists x, n.
Qed.

Lemma all_destinations_lookup G t :
  all_destinations G → t ∈ ntypes G →
  ∃ c, c ∈ canonical_etypes G ∧ dst_type c = t.
Proof.
  unfold all_destinations. rewrite Forall_forall. intros H Ht.
  specialize (H t Ht). apply list_elem_of_fmap in H as (c & -> & Hc). by exists c.
Qed.

Lemma graph_wf_same_topology G G' :
  same_topology G G' → graph_wf G → graph_wf G'.
Proof.
  intros (Hn & Hnn & Hc & He). unfold graph_wf, edges_ok.
  by rewrite Hn, Hnn, Hc, He.
Qed.

Lemma Wh_of_ok in_size out_size L G feat c :
  layer_ok in_size out_size (etypes G) L → feat_ok G in_size feat →
  c ∈ canonical_etypes G →
  ∃ Wh, Wh_of L feat c = OK Wh ∧
        num_nodes G !! src_type c = Some (length (rows Wh)) ∧
        ncols Wh = out_size ∧ tensor_wf Wh.
Proof.
  intros HL Hf Hc.
  destruct (layer_ok_lookup _ _ _ _ (rel_name c) HL) as (lin & Hlin & Hwf & Hin & Hout).
  { by apply list_elem_of_fmap_2. }
  destruct (feat_ok_lookup _ _ _ c Hf Hc) as (x & n & Hx & Hn & Hshape).
  injection Hshape as Hrows Hcols.
  destruct (Linear_forward_OK lin x Hwf) as (Wh & HWh & HshWh & HwfWh); [congruence|].
  injection HshWh as HrWh HcWh.
  exists Wh. unfold Wh_of. rewrite Hlin, Hx. simpl.
  split; [done|]. split; [by rewrite HrWh, Hrows|]. split; [congruence|done].
Qed.

Lemma mapR_map_total {A B C} (g : A → B) (f : B → result C) (P : A → C → Prop)
    (l : list A) :
  (∀ a, a ∈ l → ∃ c, f (g a) = OK c ∧ P a c) →
  ∃ cs, mapR f (map g l) = OK cs ∧ Forall2 P l cs.
Proof.
  induction l as [|a l IH]; intros Hl.
  - exists []. by split; [|constructor].
  - destruct (Hl a) as (c & Hc & HP); [by left|].
    destruct IH as (cs & Hcs & HF); [intros a' Ha'; apply Hl; by right|].
    exists (c :: cs). split; [|by constructor].
    simpl. rewrite Hc; simpl. by rewrite Hcs.
Qed.

Lemma forward_total in_size out_size L G feat :
  graph_wf G → NoDup (etypes G) → all_destinations G →
  layer_ok in_size out_size (etypes G) L → feat_ok G in_size feat →
  ∃ out G2, forward L G feat = OK (out, G2) ∧ same_topology G G2 ∧
    (∀ t, t ∉ ntypes G → out !! t = None) ∧
    (∀ t, t ∈ ntypes G →
       ∃ T n, out !! t = Some T ∧ num_nodes G !! t = Some n ∧
              shape T = (n, out_size) ∧ tensor_wf T).
Proof.
  intros Hwf Hnd Hdst HL Hfeat.
  (* the loop *)
  destruct (forward_loop_total L feat (canonical_etypes G) G []) as (G1 & funcs & Hloop).
  { intros c Hc. destruct (Wh_of_ok _ _ _ _ _ _ HL Hfeat Hc) as (Wh & ? & ? & _).
    by exists Wh. }
  destruct (forward_loop_spec _ _ _ _ _ _ _ Hloop) as (Htop & Hfuncs & Hslots & _).
  rewrite funcs_of_loop in Hfuncs; [|done|intros c _ H; by apply elem_of_nil in H].
  simpl in Hfuncs. destruct Htop as (Hnt & Hnn & Hce & Hed).
  (* one aggregate per canonical edge type *)
  destruct (mapR_map_total (λ c, (rel_name c, func_of (rel_name c)))
              (relation_aggregate G1)
              (λ c a, a.1 = (dst_type c, "h") ∧ fits (h_shape G out_size) a.1 a.2)
              (canonical_etypes G)) as (aggs & Haggs & Hall).
  { intros c Hc.
    destruct (Wh_of_ok _ _ _ _ _ _ HL Hfeat Hc) as (Wh & HWh & Hns & Hcols & HwfWh).
    destruct (Hslots c Hc) as (Wh' & HWh' & Hslot & _).
    assert (Wh' = Wh) as -> by congruence.
    destruct (wf_edges G Hwf c Hc) as (es & ns & nd & Hes & Hns' & Hnd' & Hrange).
    assert (to_canonical_etype G1 (rel_name c) = OK c) as Hcan.
    { apply to_canonical_etype_unique; unfold etypes; rewrite Hce; done. }
    destruct (relation_aggregate_total G1 (rel_name c) c
                (scratch_name (rel_name c)) "m" "h" Wh nd es) as (A & HA);
      [done|done|by rewrite Hnn|by rewrite Hed| |].
    { eapply Forall_impl; [exact Hrange|]. intros e [He _]. congruence. }
    exists (dst_type c, "h", A). split; [done|]. split; [done|].
    apply relation_aggregate_inv in HA
      as (c' & F & nd' & es' & Hc' & HF & _ & Hnd'' & Hes' & _ & _ & HcolsA & Hrows).
    assert (c' = c) as -> by congruence.
    assert (F = Wh) as -> by (unfold slot in Hslot; congruence).
    rewrite Hnn in Hnd''. assert (nd' = nd) as -> by congruence.
    destruct (aggregate_rows_shape _ _ _ _ HwfWh Hrows) as [Hlen Hw].
    split; simpl.
    - unfold shape, h_shape; simpl. rewrite Hnd'. simpl. congruence.
    - unfold tensor_wf. by rewrite HcolsA. }
  rewrite <- Hfuncs in Haggs.
  (* the sum across relations *)
  destruct (cross_sum_fold_total (h_shape G out_size) aggs ∅) as (merged & Hmerged & Hfits).
  { clear -Hall. induction Hall as [|c a cs aggs [_ Ha] _ IH]; by constructor. }
  { intros k T. by rewrite lookup_empty. }
  set (G2 := with_ndata G1 (merged ∪ ndata G1)).
  assert (forward_update L G feat = OK G2) as Hupdate.
  { unfold forward_update. apply bind_OK. exists (G1, funcs). split; [exact Hloop|].
    unfold multi_update_all. rewrite Haggs. simpl. by rewrite Hmerged. }
  assert (∀ t, t ∈ ntypes G → ∃ T n, ndata G2 !! (t, "h") = Some T ∧
            num_nodes G !! t = Some n ∧ shape T = (n, out_size) ∧ tensor_wf T) as Hh.
  { intros t Ht. destruct (all_destinations_lookup _ _ Hdst Ht) as (c & Hc & <-).
    assert ((dst_type c, "h") ∈ aggs.*1) as Hin.
    { apply list_elem_of_lookup in Hc as [i Hi].
      destruct (Forall2_lookup_l _ _ _ _ _ Hall Hi) as (a & Ha & Hkey & _).
      rewrite <- Hkey. apply list_elem_of_fmap_2. by eapply list_elem_of_lookup_2. }
    destruct (sum_at_in _ None _ Hin) as [T HT].
    pose proof (cross_sum_fold_lookup _ _ _ Hmerged (dst_type c, "h")) as Hm.
    rewrite lookup_empty, HT in Hm.
    destruct (Hfits _ _ Hm) as [Hshape HwfT].
    destruct (wf_num_nodes G Hwf _ Ht) as [n Hn].
    exists T, n. simpl. split; [by apply lookup_union_Some_l|].
    split; [done|]. split; [|done].
    rewrite Hshape. unfold h_shape; simpl. by rewrite Hn. }
  destruct (collect_h_total G2) as [out Hout].
  { intros t Ht. simpl in Ht. rewrite Hnt in Ht.
    destruct (Hh t Ht) as (T & _ & HT & _). by exists T. }
  exists out, G2. split; [by apply forward_inv|].
  split; [done|]. pose proof (collect_h_spec _ _ Hout) as Hspec.
  simpl in Hspec. rewrite Hnt in Hspec. split.
  - intros t Ht. rewrite Hspec. by rewrite decide_False.
  - intros t Ht. destruct (Hh t Ht) as (T & n & HT & Hn & Hs & Hw).
    exists T, n. rewrite Hspec, decide_True by done. done.
Qed.

(** ** C1: the dictionary returned by [forward] *)

(** C1, as stated, fails.  On the user-movie graph of cell 4 the feature
    dictionary covers the only source type, yet [forward] returns no
    dictionary at all: the comprehension over [G.ntypes] reads the ['h']
    feature of 'user', which no relation writes.  And on a graph whose two
    canonical edge types share a relation name, [multi_update_all] cannot
    resolve the keys of [funcs]. *)
Lemma C1_counterexample :
  (graph_wf ratings ∧ layer_ok 2 2 (etypes ratings) ratings_layer ∧
   feat_ok ratings 2 ratings_feat ∧
   ¬ ∃ out G', forward ratings_layer ratings ratings_feat = OK (out, G') ∧
               ∀ t, is_Some (out !! t) ↔ is_destination ratings t) ∧
  (graph_wf links_graph ∧ layer_ok 1 1 (etypes links_graph) links_layer ∧
   feat_ok links_graph 1 links_feat ∧
   ¬ ∃ out G', forward links_layer links_graph links_feat = OK (out, G') ∧
               ∀ t, is_Some (out !! t) ↔ is_destination links_graph t).
Proof.
  split.
  - split; [by_compute|]. split; [by_compute|]. split; [by_compute|].
    intros (out & G' & H & _).
    apply (f_equal (fmap fst)) in H. rewrite ratings_forward_fails in H. done.
  - split; [by_compute|]. split; [by_compute|]. split; [by_compute|].
    intros (out & G' & H & _).
    apply (f_equal (fmap fst)) in H. rewrite links_forward_fails in H. done.
Qed.

(** C1, amended: when every node type of a well-formed graph is the
    destination of some canonical edge type and no two canonical edge types
    share a relation name, [forward] on a layer owning an [in_size → out_size]
    map for every relation and a feature dictionary covering every source
    type returns a dictionary whose entries are exactly the destination types
    (all node types of [G]), each of shape [(G.num_nodes(t), out_size)]. *)
Theorem C1_forward_output in_size out_size L G feat :
  graph_wf G → NoDup (etypes G) → all_destinations G →
  layer_ok in_size out_size (etypes G) L → feat_ok G in_size feat →
  ∃ out G', forward L G feat = OK (out, G') ∧
    (∀ t, is_Some (out !! t) ↔ is_destination G t) ∧
    (∀ t, is_destination G t →
       ∃ T n, out !! t = Some T ∧ num_nodes G !! t = Some n ∧
              shape T = (n, out_size) ∧ tensor_wf T).
Proof.
  intros Hwf Hnd Hdst HL Hfeat.
  destruct (forward_total _ _ _ _ _ Hwf Hnd Hdst HL Hfeat)
    as (out & G' & Hfw & _ & Hnone & Hsome).
  assert (∀ t, is_destination G t → t ∈ ntypes G) as Hin.
  { intros t (c & -> & Hc)%list_elem_of_fmap. by apply (wf_endpoints G Hwf c Hc). }
  exists out, G'. split; [done|]. split.
  - intros t. split.
    + intros Ht. destruct (decide (t ∈ ntypes G)) as [Hnt|Hnt].
      * destruct (all_destinations_lookup _ _ Hdst Hnt) as (c & Hc & <-).
        by apply list_elem_of_fmap_2.
      * rewrite (Hnone t Hnt) in Ht. by destruct Ht.
    + intros Ht. destruct (Hsome t (Hin t Ht)) as (T & _ & -> & _). done.
  - intros t Ht. by apply Hsome, Hin.
Qed.

Lemma C1_forward_output_witness :
  ∃ out G', forward citing_layer citing citing_feat = OK (out, G') ∧
    (∀ t, is_Some (out !! t) ↔ is_destination citing t) ∧
    (∀ t, is_destination citing t →
       ∃ T n, out !! t = Some T ∧ num_nodes citing !! t = Some n ∧
              shape T = (n, 1) ∧ tensor_wf T).
Proof.
  apply (C1_forward_output 1 1 citing_layer citing citing_feat); by_compute.
Defined.

(** ** C2: where the loop saves [Wh] *)

(** C2, as stated, fails: the scratch feature is named after the relation
    name alone, so two different canonical edge types with the same source
    type and relation name are given the very same place of the store; the
    loop over two such edge types leaves a single feature behind. *)
Lemma C2_counterexample :
  (¬ ∀ c c' : cetype, c ≠ c' → slot c ≠ slot c') ∧
  length (canonical_etypes two_targets_graph) = 2 ∧
  dom (ndata two_targets_after_loop.1) = {[ ("user", "Wh_rates") ]}.
Proof.
  split; [|split; [done|by_compute]].
  intros H. by apply (H ("user", "rates", "movie") ("user", "rates", "book")).
Qed.

(** C2, amended: [Wh] of [(s, r, d)] is stored on node type [s] under the
    name ['Wh_' + r], which depends on the relation name alone and differs
    for different relation names; two canonical edge types are given the
    same place exactly when they agree on source type and relation name.
    After the loop the place of every canonical edge type holds its own
    [W_r(feat[s])], so canonical edge types sharing a source type do not
    lose their [Wh]. *)
Theorem C2_scratch_slots :
  (∀ c c' : cetype,
     slot c = slot c' ↔ src_type c = src_type c' ∧ rel_name c = rel_name c') ∧
  (∀ L feat G funcs G1 funcs1,
     foldM (forward_step L feat) (G, funcs) (canonical_etypes G) = OK (G1, funcs1) →
     ∀ c, c ∈ canonical_etypes G →
       ∃ Wh, Wh_of L feat c = OK Wh ∧
             ndata G1 !! (src_type c, "Wh_" +:+ rel_name c) = Some Wh).
Proof.
  split.
  - intros c c'. unfold slot. split.
    + intros Heq. pose proof (f_equal fst Heq) as Hs. pose proof (f_equal snd Heq) as Hr.
      cbn [fst snd] in Hs, Hr. by apply scratch_name_inj in Hr.
    + by intros [-> ->].
  - intros L feat G funcs G1 funcs1 Hloop c Hc.
    destruct (forward_loop_spec _ _ _ _ _ _ _ Hloop) as (_ & _ & Hslots & _).
    destruct (Hslots c Hc) as (Wh & ? & ? & _). by exists Wh.
Qed.

Lemma C2_scratch_slots_witness :
  ∃ Wh, Wh_of ratings_layer ratings_feat ("user", "-1", "movie") = OK Wh ∧
        ndata ratings_after_loop.1 !! ("user", "Wh_-1") = Some Wh.
Proof.
  apply (proj2 C2_scratch_slots ratings_layer ratings_feat ratings []
           ratings_after_loop.1 ratings_after_loop.2).
  - vm_compute. reflexivity.
  - by_compute.
Defined.

(** ** C4: destinations without incoming edges *)




(** ** C5: the sum across relations *)

Lemma cross_sum_inv acc a acc1 :
  cross_sum acc a = OK acc1 →
  (acc !! a.1 = None ∧ acc1 = <[a.1 := a.2]> acc) ∨
  (∃ B, acc !! a.1 = Some B ∧ shape a.2 = shape B ∧ acc1 = <[a.1 := tadd B a.2]> acc).
Proof.
  destruct a as [[d name] A]. unfold cross_sum; simpl.
  destruct (acc !! (d, name)) as [B|].
  - case_decide; [|done]. intros [= <-]. right. by exists B.
  - intros [= <-]. by left.
Qed.

Lemma tadd_lookup A B v x y :
  rows B !! v = Some x → rows A !! v = Some y →
  rows (tadd B A) !! v = Some (vadd x y).
Proof. intros HB HA. unfold tadd; simpl. by rewrite lookup_zip_with, HB, HA. Qed.

Lemma targeting_cons_eq k a aggs :
  a.1 = k → targeting k (a :: aggs) = a.2 :: targeting k aggs.
Proof. intros H. unfold targeting. by rewrite filter_cons_True. Qed.

Lemma targeting_cons_ne k a aggs :
  a.1 ≠ k → targeting k (a :: aggs) = targeting k aggs.
Proof. intros H. unfold targeting. by rewrite filter_cons_False. Qed.

Lemma cross_sum_fold_rows_Some aggs : ∀ acc acc' k B,
  foldM cross_sum acc aggs = OK acc' → acc !! k = Some B → tensor_wf B →
  Forall (λ a, tensor_wf a.2) aggs →
  ∃ T, acc' !! k = Some T ∧ shape T = shape B ∧ tensor_wf T ∧
       ∀ v x, rows B !! v = Some x →
         rows T !! v = Some (foldl vadd x (rows_at v (targeting k aggs))).
Proof.
  induction aggs as [|a aggs IH]; intros acc acc' k B Hfold HB HwB Hwf.
  - injection Hfold as <-. exists B. by repeat split.
  - cbn [foldM] in Hfold. apply bind_OK in Hfold as (acc1 & H1 & Hrest).
    apply Forall_cons in Hwf as [Hwa Hwf].
    destruct (decide (a.1 = k)) as [Hk|Hk].
    + apply cross_sum_inv in H1 as [[Hnone _]|(B' & HB' & Hshape & ->)];
        [congruence|].
      rewrite Hk, HB in HB'. injection HB' as <-.
      destruct (tadd_shape _ _ Hshape Hwa HwB) as [Hs Hw].
      destruct (IH _ _ k (tadd B a.2) Hrest) as (T & HT & HsT & HwT & Hrows);
        [by rewrite Hk, lookup_insert_eq|done|done|].
      exists T. split; [done|]. split; [congruence|]. split; [done|].
      intros v x Hx.
      assert (is_Some (rows a.2 !! v)) as [y Hy].
      { apply lookup_lt_is_Some. apply lookup_lt_Some in Hx.
        injection Hshape as Hlen _. lia. }
      rewrite (Hrows v (vadd x y)) by by apply tadd_lookup.
      rewrite targeting_cons_eq by done. unfold rows_at; simpl. by rewrite Hy.
    + assert (acc1 !! k = Some B) as HB1.
      { apply cross_sum_inv in H1 as [[_ ->]|(B' & _ & _ & ->)];
          by rewrite lookup_insert_ne. }
      destruct (IH _ _ k B Hrest HB1 HwB Hwf) as (T & HT & HsT & HwT & Hrows).
      exists T. rewrite targeting_cons_ne by done. by repeat split.
Qed.

Lemma cross_sum_fold_rows_None aggs : ∀ acc acc' k,
  foldM cross_sum acc aggs = OK acc' → acc !! k = None →
  Forall (λ a, tensor_wf a.2) aggs → targeting k aggs ≠ [] →
  ∃ T, acc' !! k = Some T ∧ tensor_wf T ∧
       ∀ v, v < length (rows T) →
         rows T !! v = Some (vsum (ncols T) (rows_at v (targeting k aggs))).
Proof.
  induction aggs as [|a aggs IH]; intros acc acc' k Hfold Hnone Hwf Hne; [done|].
  cbn [foldM] in Hfold. apply bind_OK in Hfold as (acc1 & H1 & Hrest).
  apply Forall_cons in Hwf as [Hwa Hwf].
  destruct (decide (a.1 = k)) as [Hk|Hk].
  - apply cross_sum_inv in H1 as [[_ ->]|(B' & HB' & _)]; [|congruence].
    destruct (cross_sum_fold_rows_Some _ _ _ k a.2 Hrest)
      as (T & HT & HsT & HwT & Hrows); [by rewrite Hk, lookup_insert_eq|done|done|].
    exists T. split; [done|]. split; [done|]. intros v Hv.
    injection HsT as Hlen Hcols.
    destruct (lookup_lt_is_Some_2 (rows a.2) v) as [x Hx]; [lia|].
    rewrite (Hrows v x Hx), targeting_cons_eq by done.
    unfold rows_at, vsum; simpl. rewrite Hx. simpl. rewrite vadd_vzero_l; [done|].
    unfold tensor_wf in Hwa. rewrite Forall_forall in Hwa. rewrite Hcols.
    apply Hwa. by eapply list_elem_of_lookup_2.
  - rewrite targeting_cons_ne in Hne |- * by done.
    apply (IH acc1 acc' k Hrest); [|done|done].
    apply cross_sum_inv in H1 as [[_ ->]|(B' & _ & _ & ->)];
      by rewrite lookup_insert_ne.
Qed.

Lemma relation_aggregate_wf G kf a :
  store_wf G → relation_aggregate G kf = OK a → tensor_wf a.2.
Proof.
  intros Hst. destruct kf as [r [[sf m] [m' out]]], a as [[d name] A].
  intros (c & F & nd & es & _ & HF & _ & _ & _ & _ & _ & Hcols & Hrows)%relation_aggregate_inv.
  simpl. unfold tensor_wf. rewrite Hcols.
  by apply (aggregate_rows_shape F es nd), Hrows; apply (Hst _ _ HF).
Qed.

(** C5, as stated, fails in its example: movie 1 receives [1, 0] under '+1'
    and [1, 1] under '-1', whose sum is [2, 1], not [1.5, 1.5]. *)
Lemma C5_counterexample :
  ratings_movie_row 1 ≠ OK [q 3 2; q 3 2].
Proof. by_compute. Qed.

(** C5, amended: with [cross_reducer = sum], each row of the feature that
    [multi_update_all] writes is the element-wise sum, over the relations
    of [funcs] targeting that feature, of the relation's mean aggregate at
    that node; on scenario S1 with identity weights the rows of 'movie' are
    [0.5, 0.5] and [2, 1]. *)
Theorem C5_sum_of_relation_means :
  (∀ funcs G G' aggs k,
     store_wf G → multi_update_all funcs G = OK G' →
     mapR (relation_aggregate G) funcs = OK aggs → targeting k aggs ≠ [] →
     ∃ T, ndata G' !! k = Some T ∧
          ∀ v, v < length (rows T) →
            rows T !! v = Some (vsum (ncols T) (rows_at v (targeting k aggs)))) ∧
  ratings_movie_row 0 = OK [q 1 2; q 1 2] ∧
  ratings_movie_row 1 = OK [qi 2; qi 1].
Proof.
  split; [|split; by_compute].
  intros funcs G G' aggs k Hst Hmu Haggs Hne.
  apply multi_update_all_inv in Hmu as (aggs' & merged & Haggs' & Hmerged & ->).
  rewrite Haggs in Haggs'. injection Haggs' as <-.
  destruct (cross_sum_fold_rows_None aggs ∅ merged k Hmerged) as (T & HT & _ & Hrows);
    [apply lookup_empty| |done|].
  { apply mapR_Forall2 in Haggs. clear -Haggs Hst.
    induction Haggs as [|kf a funcs aggs Ha _ IH]; constructor; [|done].
    by eapply relation_aggregate_wf. }
  exists T. split; [|done]. simpl. by apply lookup_union_Some_l.
Qed.

Lemma C5_sum_of_relation_means_witness :
  ∃ T, ndata ratings_updated !! ("movie", "h") = Some T ∧
       ∀ v, v < length (rows T) →
         rows T !! v =
           Some (vsum (ncols T) (rows_at v (targeting ("movie", "h") ratings_aggregates))).
Proof.
  apply (proj1 C5_sum_of_relation_means ratings_after_loop.2 ratings_after_loop.1).
  - by_compute.
  - vm_compute. reflexivity.
  - vm_compute. reflexivity.
  - by_compute.
Defined.

(** ** C6: one weight matrix per relation name *)



(** ** C7: relation isolation *)

(** C7: on a graph whose only canonical edge type is [(s, r, d)], the layer
    reads the feature dictionary at [s] only: two dictionaries that agree
    on [s] give the same result (returned dictionary and graph), whatever
    they hold for other types. *)
Theorem C7_relation_isolation L G c feat1 feat2 :
  canonical_etypes G = [c] →
  feat1 !! src_type c = feat2 !! src_type c →
  forward_update L G feat1 = forward_update L G feat2 ∧
  forward L G feat1 = forward L G feat2.
Proof.
  intros Hc Hfeat.
  assert (forward_update L G feat1 = forward_update L G feat2) as Hu.
  { unfold forward_update. rewrite Hc. cbn [foldM].
    assert (forward_step L feat1 (G, []) c = forward_step L feat2 (G, []) c) as ->; [|done].
    destruct c as [[s r] d]. unfold forward_step, src_type in *. simpl in Hfeat.
    by rewrite Hfeat. }
  split; [done|]. unfold forward. by rewrite Hu.
Qed.

Lemma C7_relation_isolation_witness :
  forward_update citing_layer citing citing_feat
    = forward_update citing_layer citing citing_feat_other ∧
  forward citing_layer citing citing_feat = forward citing_layer citing citing_feat_other.
Proof.
  apply (C7_relation_isolation citing_layer citing ("paper", "citing", "paper")).
  - reflexivity.
  - by_compute.
Defined.

(** ** C9: what [forward] changes on the graph *)

Lemma elem_of_dict_set {V} k (v : V) d kf :
  kf ∈ dict_set k v d → kf = (k, v) ∨ kf ∈ d.
Proof.
  induction d as [|[k' v'] d IH]; simpl.
  - intros ->%list_elem_of_singleton. by left.
  - case_decide.
    + intros [->|H']%elem_of_cons; [by left|]. right. by right.
    + intros [->|H']%elem_of_cons; [right; by left|].
      destruct (IH H') as [->|?]; [by left|]. right. by right.
Qed.

Lemma dict_set_in {V} k (v : V) d : (k, v) ∈ dict_set k v d.
Proof.
  induction d as [|[k' v'] d IH]; simpl; [by left|].
  case_decide; [by left|by right].
Qed.

Lemma dict_set_other {V} k (v : V) d kf :
  kf ∈ d → kf.1 ≠ k → kf ∈ dict_set k v d.
Proof.
  induction d as [|[k' v'] d IH]; simpl; [intros H; by apply elem_of_nil in H|].
  intros [->|Hin]%elem_of_cons Hne.
  - simpl in Hne. rewrite decide_False by done. by left.
  - case_decide; right; [done|by apply IH].
Qed.

Lemma loop_funcs_elem cs : ∀ (funcs : funcs_t) kf,
  kf ∈ foldl (λ f c, dict_set (rel_name c) (func_of (rel_name c)) f) funcs cs →
  kf ∈ funcs ∨ ∃ c, c ∈ cs ∧ kf = (rel_name c, func_of (rel_name c)).
Proof.
  induction cs as [|c cs IH]; intros funcs kf; simpl; [by left|].
  intros [[->|H]%elem_of_dict_set|(c' & Hc' & ->)]%IH.
  - right. exists c. split; [by left|done].
  - by left.
  - right. exists c'. split; [by right|done].
Qed.

Lemma loop_funcs_has cs : ∀ (funcs : funcs_t) c,
  c ∈ cs →
  (rel_name c, func_of (rel_name c))
    ∈ foldl (λ f c, dict_set (rel_name c) (func_of (rel_name c)) f) funcs cs.
Proof.
  assert (∀ cs (funcs : funcs_t) r, (r, func_of r) ∈ funcs →
    (r, func_of r) ∈ foldl (λ f c, dict_set (rel_name c) (func_of (rel_name c)) f) funcs cs)
    as Hkeep.
  { clear. induction cs as [|c cs IH]; intros funcs r Hr; simpl; [done|].
    apply IH. destruct (decide (r = rel_name c)) as [->|Hne].
    - apply dict_set_in.
    - by apply dict_set_other. }
  induction cs as [|c' cs IH]; intros funcs c Hc; simpl.
  - by apply elem_of_nil in Hc.
  - apply elem_of_cons in Hc as [->|Hc]; [|by apply IH].
    apply Hkeep, dict_set_in.
Qed.

Lemma to_canonical_etype_only G r c c' :
  to_canonical_etype G r = OK c → c' ∈ canonical_etypes G → rel_name c' = r → c' = c.
Proof.
  unfold to_canonical_etype.
  destruct (filter _ _) as [|c0 [|? ?]] eqn:Hf; [done| |done].
  intros [= ->] Hc' Hr.
  assert (c' ∈ filter (λ c', rel_name c' = r) (canonical_etypes G)) as Hin
    by by apply list_elem_of_filter.
  rewrite Hf in Hin. by apply list_elem_of_singleton in Hin.
Qed.

Lemma scratch_name_not_h r : scratch_name r ≠ "h".
Proof. unfold scratch_name. simpl. discriminate. Qed.

(** The footprint of a call of [forward] that returns: topology kept, the
    scratch features and ['h'] written, every other feature kept. *)
Lemma forward_frame L G feat out G' :
  forward L G feat = OK (out, G') →
  same_topology G G' ∧
  (∀ c, c ∈ canonical_etypes G →
     ∃ Wh, Wh_of L feat c = OK Wh ∧
           ndata G' !! (src_type c, "Wh_" +:+ rel_name c) = Some Wh) ∧
  (∀ c, c ∈ canonical_etypes G → is_Some (ndata G' !! (dst_type c, "h"))) ∧
  (∀ k, (∀ c, c ∈ canonical_etypes G →
           k ≠ (src_type c, "Wh_" +:+ rel_name c) ∧ k ≠ (dst_type c, "h")) →
        ndata G' !! k = ndata G !! k).
Proof.
  intros [Hu _]%forward_inv.
  apply forward_update_inv in Hu as (G1 & funcs & aggs & merged & Hloop & Haggs & Hm & ->).
  destruct (forward_loop_spec _ _ _ _ _ _ _ Hloop) as (Htop & -> & Hslots & Hframe).
  destruct Htop as (Hnt & Hnn & Hce & Hed).
  apply mapR_Forall2 in Haggs.
  (* every aggregate targets the 'h' feature of a destination type *)
  assert (∀ a, a ∈ aggs → ∃ c, c ∈ canonical_etypes G ∧ a.1 = (dst_type c, "h")) as Hkeys.
  { intros a Ha. apply list_elem_of_lookup in Ha as [i Hi].
    destruct (Forall2_lookup_r _ _ _ _ _ Haggs Hi) as (kf & Hkf & Hagg).
    apply list_elem_of_lookup_2, loop_funcs_elem in Hkf as [Hnil|(c & Hc & ->)];
      [by apply elem_of_nil in Hnil|].
    destruct a as [[d name] A].
    apply relation_aggregate_inv in Hagg as (c' & _ & _ & _ & Hc' & _ & _ & _ & _ & -> & -> & _).
    apply to_canonical_etype_OK in Hc' as [Hc' _]. rewrite Hce in Hc'. by exists c'. }
  assert (∀ k, (∀ c, c ∈ canonical_etypes G → k ≠ (dst_type c, "h")) →
               (merged ∪ ndata G1) !! k = ndata G1 !! k) as Hkeep.
  { intros k Hk. rewrite (merged_lookup _ _ _ _ Hm), sum_at_notin; [done|].
    intros (a & -> & Ha)%list_elem_of_fmap. destruct (Hkeys a Ha) as (c & Hc & Heq).
    by apply (Hk c Hc). }
  split; [done|]. split; [|split].
  - intros c Hc. destruct (Hslots c Hc) as (Wh & HWh & Hslot & _).
    exists Wh. split; [done|]. simpl. rewrite Hkeep; [done|].
    intros c' _ Heq. apply (f_equal snd) in Heq. simpl in Heq.
    by apply (scratch_name_not_h (rel_name c)).
  - intros c Hc. simpl. rewrite (merged_lookup _ _ _ _ Hm).
    assert ((dst_type c, "h") ∈ aggs.*1) as Hin.
    { pose proof (loop_funcs_has (canonical_etypes G) [] c Hc) as Hkf.
      apply list_elem_of_lookup in Hkf as [i Hi].
      destruct (Forall2_lookup_l _ _ _ _ _ Haggs Hi) as ([[d name] A] & Ha & Hagg).
      apply relation_aggregate_inv in Hagg
        as (c' & _ & _ & _ & Hc' & _ & _ & _ & _ & -> & -> & _).
      rewrite <- Hce in Hc.
      rewrite (to_canonical_etype_only _ _ _ _ Hc' Hc eq_refl).
      apply list_elem_of_lookup_2 in Ha.
      by apply (list_elem_of_fmap_2 fst) in Ha. }
    destruct (sum_at_in _ None _ Hin) as [T ->]. done.
  - intros k Hk. simpl. rewrite Hkeep by (intros c Hc; by destruct (Hk c Hc)).
    apply Hframe. intros (c & -> & Hc)%list_elem_of_fmap.
    by destruct (Hk c Hc) as [Hne _].
Qed.


Lemma filter_singleton_NoDup {A B} `{EqDecision B} (f : A → B) (l : list A) :
  (∀ x, x ∈ l → length (filter (λ y, f y = f x) l) = 1) → NoDup (map f l).
Proof.
  induction l as [|a l IH]; intros Hl; simpl; [constructor|].
  assert (filter (λ y, f y = f a) l = []) as Ha.
  { specialize (Hl a (list_elem_of_here _ _)).
    rewrite filter_cons_True in Hl by done. simpl in Hl.
    destruct (filter _ l); [done|simpl in Hl; lia]. }
  constructor.
  - intros (b & Hb & Hin)%list_elem_of_fmap.
    by apply (filter_nil_not_elem_of _ _ b Ha).
  - apply IH. intros x Hx. specialize (Hl x (list_elem_of_further _ _ _ Hx)).
    rewrite filter_cons_False in Hl; [done|].
    intros Heq. apply (filter_nil_not_elem_of _ _ x Ha); [by symmetry|done].
Qed.

(** A call of [forward] that returns has resolved every relation name, so
    no two canonical edge types share one. *)
Lemma forward_OK_NoDup L G feat out G' :
  forward L G feat = OK (out, G') → NoDup (etypes G).
Proof.
  intros [Hu _]%forward_inv.
  apply forward_update_inv in Hu as (G1 & funcs & aggs & merged & Hloop & Haggs & _ & _).
  destruct (forward_loop_spec _ _ _ _ _ _ _ Hloop) as ((_ & _ & Hce & _) & -> & _ & _).
  apply mapR_Forall2 in Haggs.
  apply filter_singleton_NoDup. intros c Hc.
  pose proof (loop_funcs_has (canonical_etypes G) [] c Hc) as Hkf.
  apply list_elem_of_lookup in Hkf as [i Hi].
  destruct (Forall2_lookup_l _ _ _ _ _ Haggs Hi) as ([[d name] A] & _ & Hagg).
  apply relation_aggregate_inv in Hagg as (c' & _ & _ & _ & Hc' & _).
  unfold to_canonical_etype in Hc'. rewrite Hce in Hc'.
  by destruct (filter _ (canonical_etypes G)) as [|? [|? ?]].
Qed.

(** On a store without ['h'] features, a call of [forward] that returns
    has found every node type to be a destination. *)
Lemma forward_OK_all_destinations L G feat out G' :
  (∀ t, ndata G !! (t, "h") = None) →
  forward L G feat = OK (out, G') → all_destinations G.
Proof.
  intros Hfresh Hfw. apply Forall_forall. intros t Ht.
  destruct (decide (t ∈ map dst_type (canonical_etypes G))) as [|Hnd]; [done|].
  destruct (forward_frame _ _ _ _ _ Hfw) as ((Hnt & _) & _ & _ & Hframe).
  apply forward_inv in Hfw as [_ Hc].
  destruct (collect_h_Some _ _ t Hc) as [T HT]; [by rewrite Hnt|].
  rewrite Hframe, Hfresh in HT; [done|].
  intros c Hc'. split.
  - intros Heq. apply (f_equal snd) in Heq. simpl in Heq.
    by apply (scratch_name_not_h (rel_name c)).
  - intros [= ->]. apply Hnd. by apply list_elem_of_fmap_2.
Qed.

(** On valid inputs and a store without ['h'] features, [forward] returns
    exactly when every node type is a destination and relation names are
    unique. *)
Lemma forward_returns_iff in_size out_size L G feat :
  graph_wf G → (∀ t, ndata G !! (t, "h") = None) →
  layer_ok in_size out_size (etypes G) L → feat_ok G in_size feat →
  (∃ out G', forward L G feat = OK (out, G')) ↔
  all_destinations G ∧ NoDup (etypes G).
Proof.
  intros Hwf Hfresh HL Hfeat. split.
  - intros (out & G' & Hfw). split.
    + by eapply forward_OK_all_destinations.
    + by eapply forward_OK_NoDup.
  - intros [Hdst Hnd].
    destruct (forward_total _ _ _ _ _ Hwf Hnd Hdst HL Hfeat) as (out & G' & Hfw & _).
    by exists out, G'.
Qed.

(** C9: a call of [forward] that returns leaves node types, node counts,
    canonical edge types and edge lists as they were; in the feature store
    it leaves [W_r(feat[s])] under ['Wh_' + r] on the source type of every
    canonical edge type and an ['h'] feature on every destination type,
    and it changes no other feature. *)
Theorem C9_forward_frame L G feat out G' :
  forward L G feat = OK (out, G') →
  same_topology G G' ∧
  (∀ c, c ∈ canonical_etypes G →
     ∃ Wh, Wh_of L feat c = OK Wh ∧
           ndata G' !! (src_type c, "Wh_" +:+ rel_name c) = Some Wh) ∧
  (∀ c, c ∈ canonical_etypes G → is_Some (ndata G' !! (dst_type c, "h"))) ∧
  (∀ k, (∀ c, c ∈ canonical_etypes G →
           k ≠ (src_type c, "Wh_" +:+ rel_name c) ∧ k ≠ (dst_type c, "h")) →
        ndata G' !! k = ndata G !! k).
Proof. apply forward_frame. Qed.

Lemma C9_forward_frame_witness :
  same_topology citing citing_forward.2 ∧
  (∀ c, c ∈ canonical_etypes citing →
     ∃ Wh, Wh_of citing_layer citing_feat c = OK Wh ∧
           ndata citing_forward.2 !! (src_type c, "Wh_" +:+ rel_name c) = Some Wh) ∧
  (∀ c, c ∈ canonical_etypes citing →
     is_Some (ndata citing_forward.2 !! (dst_type c, "h"))) ∧
  (∀ k, (∀ c, c ∈ canonical_etypes citing →
           k ≠ (src_type c, "Wh_" +:+ rel_name c) ∧ k ≠ (dst_type c, "h")) →
        ndata citing_forward.2 !! k = ndata citing !! k).
Proof.
  apply (C9_forward_frame citing_layer citing citing_feat citing_forward.1).
  vm_compute. reflexivity.
Defined.

(** ** C8: the two-layer model *)

Lemma feat_ok_intro G i feat :
  (∀ c, c ∈ canonical_etypes G →
     ∃ x n, feat !! src_type c = Some x ∧
            num_nodes G !! src_type c = Some n ∧ shape x = (n, i)) →
  feat_ok G i feat.
Proof.
  intros H. apply Forall_forall. intros c Hc.
  destruct (H c Hc) as (x & n & -> & -> & Hs). done.
Qed.

Lemma shape_tmap f T : shape (tmap f T) = shape T.
Proof. unfold shape, tmap; simpl. by rewrite length_map. Qed.

Lemma leaky_relu_nonneg x : (0 ≤ x)%Qc → leaky_relu x = x.
Proof. intros H. unfold leaky_relu. by rewrite decide_True. Qed.

Lemma leaky_relu_neg x : (x < 0)%Qc → leaky_relu x = (q 1 100 * x)%Qc.
Proof.
  intros H. unfold leaky_relu. rewrite decide_False; [done|].
  by apply Qclt_not_le.
Qed.

(** C8: on a valid graph that has the node type 'paper', the model runs
    its first layer on the embeddings, applies the Leaky-ReLU of slope
    0.01 to every entry of every tensor the first layer returned, runs the
    second layer on the result, and returns the second layer's tensor for
    'paper', of shape [(n_paper, out_size)]. *)
Theorem C8_model_forward in_size hidden_size out_size M G :
  graph_wf G → NoDup (etypes G) → all_destinations G → "paper" ∈ ntypes G →
  model_ok G in_size hidden_size out_size M →
  ∃ h1 G1 h2 G2 logits n_paper,
    forward (layer1 M) G (embed M) = OK (h1, G1) ∧
    forward (layer2 M) G1 (tmap leaky_relu <$> h1) = OK (h2, G2) ∧
    (∀ t T, h1 !! t = Some T →
       (tmap leaky_relu <$> h1) !! t
         = Some (mkTensor (ncols T) (map (map leaky_relu) (rows T)))) ∧
    (∀ x, (0 ≤ x)%Qc → leaky_relu x = x) ∧
    (∀ x, (x < 0)%Qc → leaky_relu x = (q 1 100 * x)%Qc) ∧
    h2 !! "paper" = Some logits ∧
    HeteroRGCN_forward M G = OK (logits, G2) ∧
    num_nodes G !! "paper" = Some n_paper ∧
    shape logits = (n_paper, out_size) ∧ tensor_wf logits.
Proof.
  intros Hwf Hnd Hdst Hpaper (HL1 & HL2 & Hembed).
  destruct (forward_total _ _ _ _ _ Hwf Hnd Hdst HL1 Hembed)
    as (h1 & G1 & Hf1 & Htop & _ & Hh1).
  pose proof Htop as (Hnt & Hnn & Hce & Hed).
  assert (etypes G1 = etypes G) as Het by (unfold etypes; by rewrite Hce).
  assert (feat_ok G1 hidden_size (tmap leaky_relu <$> h1)) as Hfeat1.
  { apply feat_ok_intro. intros c Hc. rewrite Hce in Hc.
    destruct (wf_endpoints G Hwf c Hc) as [Hs _].
    destruct (Hh1 _ Hs) as (T & n & HT & Hn & Hshape & _).
    exists (tmap leaky_relu T), n. rewrite lookup_fmap, HT, Hnn, shape_tmap. done. }
  destruct (forward_total hidden_size out_size (layer2 M) G1 (tmap leaky_relu <$> h1))
    as (h2 & G2 & Hf2 & _ & _ & Hh2).
  { by eapply graph_wf_same_topology. }
  { by rewrite Het. }
  { unfold all_destinations. by rewrite Hnt, Hce. }
  { by rewrite Het. }
  { done. }
  destruct (Hh2 "paper") as (logits & n & Hlogits & Hn & Hshape & Hwfl);
    [by rewrite Hnt|].
  exists h1, G1, h2, G2, logits, n. split; [done|]. split; [done|].
  split; [intros t T HT; by rewrite lookup_fmap, HT|].
  split; [apply leaky_relu_nonneg|]. split; [apply leaky_relu_neg|].
  split; [done|]. split.
  - unfold HeteroRGCN_forward. rewrite Hf1. simpl. rewrite Hf2. simpl.
    by rewrite Hlogits.
  - by rewrite <- Hnn.
Qed.

Lemma C8_model_forward_witness :
  ∃ h1 G1 h2 G2 logits n_paper,
    forward (layer1 citing_model) citing (embed citing_model) = OK (h1, G1) ∧
    forward (layer2 citing_model) G1 (tmap leaky_relu <$> h1) = OK (h2, G2) ∧
    (∀ t T, h1 !! t = Some T →
       (tmap leaky_relu <$> h1) !! t
         = Some (mkTensor (ncols T) (map (map leaky_relu) (rows T)))) ∧
    (∀ x, (0 ≤ x)%Qc → leaky_relu x = x) ∧
    (∀ x, (x < 0)%Qc → leaky_relu x = (q 1 100 * x)%Qc) ∧
    h2 !! "paper" = Some logits ∧
    HeteroRGCN_forward citing_model citing = OK (logits, G2) ∧
    num_nodes citing !! "paper" = Some n_paper ∧
    shape logits = (n_paper, 1) ∧ tensor_wf logits.
Proof.
  apply (C8_model_forward 1 1 1 citing_model citing); by_compute.
Defined.

(** * Label generation (cell 22) *)

Example cell22_two_conferences :
  (st ← cell22 id [[0; 5]; [11]]%Z 14;
   Some (st_labels st, st_pid st, st_train_idx st, csr_rows (st_arena st) (st_pvc st)))
  = Some ([0; 5; 1]%Z, [0; 1], [0; 1], Some [[0; 5]; [1]]%Z).
Proof. reflexivity. Qed.

(** ** CSR rows *)

Lemma elem_of_concat {A} (x : A) (ls : list (list A)) :
  x ∈ concat ls ↔ ∃ l, l ∈ ls ∧ x ∈ l.
Proof.
  induction ls as [|l ls IH]; simpl.
  - split; [by intros ?%elem_of_nil|by intros (? & ?%elem_of_nil & _)].
  - rewrite elem_of_app, IH. split.
    + intros [H|(l' & Hl' & H)]; [exists l; split; [by left|done]|].
      exists l'. split; [by right|done].
    + intros (l' & [->|Hl']%elem_of_cons & H); [by left|]. right. by exists l'.
Qed.

Lemma row_pointers_lookup M : ∀ s pre i r,
  length pre = s → M !! i = Some r →
  ∃ a b, row_pointers s M !! i = Some a ∧ row_pointers s M !! S i = Some b ∧
         take (b - a) (drop a (pre ++ concat M)) = r.
Proof.
  induction M as [|r0 M IH]; intros s pre i r Hpre Hi; [done|].
  destruct i as [|i]; simpl in Hi.
  - injection Hi as ->. exists s, (s + length r). split; [done|]. split.
    + simpl. by destruct M.
    + replace (s + length r - s) with (length r) by lia.
      simpl. rewrite drop_app_length' by done. by rewrite take_app_length.
  - destruct (IH (s + length r0) (pre ++ r0) i r) as (a & b & Ha & Hb & Hrow);
      [rewrite length_app; lia|done|].
    exists a, b. split; [done|]. split; [done|].
    simpl. by rewrite <- app_assoc in Hrow.
Qed.

Lemma row_pointers_map f M s :
  row_pointers s (map (map f) M) = row_pointers s M.
Proof.
  revert s. induction M as [|r M IH]; intros s; simpl; [done|].
  by rewrite length_map, IH.
Qed.

Lemma csr_rows_represents (h : arena) m M :
  h !! indices m = Some (concat M) → indptr m = row_pointers 0 M →
  csr_nrows m = length M → csr_rows h m = Some M.
Proof.
  intros Hidx Hptr Hn. unfold csr_rows. apply mapM_Some.
  apply Forall2_same_length_lookup_2; [by rewrite length_seq|].
  intros i j r Hj Hr. apply lookup_seq in Hj as [-> _]. simpl.
  destruct (row_pointers_lookup M 0 [] i r eq_refl Hr) as (a & b & Ha & Hb & Hrow).
  unfold csr_row. rewrite Hidx, Hptr. simpl. rewrite Ha. simpl. rewrite Hb. simpl.
  by rewrite <- Hrow.
Qed.

(** ** Cell 22 in closed form *)

Lemma remap_twice arr :
  map (λ x, if decide (x = 13%Z) then 2%Z else x)
      (map (λ x, if decide (x = 11%Z) then 1%Z else x) arr)
  = map remap arr.
Proof.
  rewrite map_map. apply map_ext. intros x. unfold remap.
  destruct (decide (x = 11%Z)) as [->|H11]; [done|].
  by destruct (decide (x = 13%Z)).
Qed.

Lemma cell22_eq permutation PvsC n_conf :
  cell22 permutation PvsC n_conf =
  Some (mkCell22 [map remap (concat PvsC)]
          (mkCsr (length PvsC) n_conf (row_pointers 0 PvsC) 0) 0
          (map remap (concat PvsC)) (pid_of PvsC)
          (take 800 (permutation (pid_of PvsC)))
          (take 100 (drop 800 (permutation (pid_of PvsC))))
          (drop 900 (permutation (pid_of PvsC)))).
Proof.
  unfold cell22, tocsr, alloc, column_select_coo. simpl.
  rewrite (csr_rows_represents _ _ PvsC) by done. simpl.
  unfold masked_assign. simpl. by rewrite remap_twice.
Qed.

Lemma elem_of_pid_of PvsC i :
  i ∈ pid_of PvsC ↔ ∃ r c, PvsC !! i = Some r ∧ c ∈ r ∧ c ∈ c_selected.
Proof.
  unfold pid_of. rewrite list_elem_of_fmap. split.
  - intros ([i' k] & -> & Hin). simpl.
    apply elem_of_concat in Hin as (l & Hl & Hin).
    apply elem_of_lookup_imap in Hl as (i0 & r & -> & Hr).
    apply list_elem_of_omap in Hin as (c & Hc & Hfind).
    destruct (list_find _ _) as [[k' c']|] eqn:Hf; [|done].
    simpl in Hfind. injection Hfind as <- <-.
    apply list_find_Some in Hf as (Hk & -> & _).
    exists r, c. split; [done|]. split; [done|]. by eapply list_elem_of_lookup_2.
  - intros (r & c & Hr & Hc & Hsel).
    destruct (list_find_elem_of (λ c', c' = c) c_selected c Hsel eq_refl) as [[k c'] Hf].
    exists (i, k). split; [done|]. apply elem_of_concat.
    eexists. split.
    + apply elem_of_lookup_imap. by exists i, r.
    + apply list_elem_of_omap. exists c. split; [done|]. by rewrite Hf.
Qed.

Lemma split_indices_in_pid permutation (pid : list nat) i :
  (∀ l, permutation l ≡ₚ l) →
  i ∈ take 800 (permutation pid) ++ take 100 (drop 800 (permutation pid))
        ++ drop 900 (permutation pid) →
  i ∈ pid.
Proof.
  intros Hperm Hi. rewrite <- (Hperm pid).
  rewrite !elem_of_app in Hi. destruct Hi as [H|[H|H]].
  - by eapply subseteq_take.
  - eapply subseteq_drop, subseteq_take, H.
  - by eapply subseteq_drop.
Qed.

Lemma concat_singletons_lookup (M : sparse) i c :
  Forall (λ r, length r = 1) M → M !! i = Some [c] → concat M !! i = Some c.
Proof.
  intros HM. revert i. induction HM as [|r M Hr _ IH]; intros i Hi; [done|].
  destruct r as [|c0 [|? ?]]; try done. simpl.
  destruct i as [|i]; simpl in Hi; [by injection Hi as ->|]. by apply IH.
Qed.

(** ** C3: the labels of the split indices *)




(** ** C10: [labels] is [pvc.indices] itself *)

Lemma map_fixed {A} (f : A → A) (l : list A) x :
  map f l = l → x ∈ l → f x = x.
Proof.
  induction l as [|a l IH]; simpl; [by intros _ ?%elem_of_nil|].
  intros [= Ha Hl] [->|Hx]%elem_of_cons; [done|]. by apply IH.
Qed.

(** C10: [labels] names the column-index array of [pvc] (no copy is made),
    so the two masked assignments rewrite [pvc]'s own array: afterwards
    [pvc] stands for the matrix with columns 11 and 13 renamed to 1 and 2,
    which differs from the original PvsC as soon as PvsC has an entry in
    column 11 or 13. *)
Theorem C10_labels_alias_pvc permutation PvsC n_conf st :
  cell22 permutation PvsC n_conf = Some st →
  csr_rows (tocsr PvsC n_conf []).2 (tocsr PvsC n_conf []).1 = Some PvsC ∧
  st_labels_alias st = indices (st_pvc st) ∧
  st_arena st !! indices (st_pvc st) = Some (map remap (concat PvsC)) ∧
  st_labels st = map remap (concat PvsC) ∧
  csr_rows (st_arena st) (st_pvc st) = Some (map (map remap) PvsC) ∧
  ((∃ c, c ∈ concat PvsC ∧ (c = 11 ∨ c = 13)%Z) →
   csr_rows (st_arena st) (st_pvc st) ≠ Some PvsC).
Proof.
  rewrite cell22_eq. intros [= <-]. simpl.
  assert (csr_rows [map remap (concat PvsC)]
            (mkCsr (length PvsC) n_conf (row_pointers 0 PvsC) 0)
          = Some (map (map remap) PvsC)) as Hafter.
  { apply csr_rows_represents; simpl.
    - by rewrite concat_map.
    - by rewrite row_pointers_map.
    - by rewrite length_map. }
  split; [by apply csr_rows_represents|]. do 4 (split; [done|]).
  intros (c & Hc & H11) Heq. rewrite Hafter in Heq. injection Heq as Heq.
  apply (f_equal (@concat Z)) in Heq. rewrite <- concat_map in Heq.
  pose proof (map_fixed remap _ c Heq Hc) as Hfix.
  unfold remap in Hfix. destruct H11 as [-> | ->]; done.
Qed.

Lemma C10_labels_alias_pvc_witness :
  csr_rows (st_arena cell22_example) (st_pvc cell22_example)
    ≠ Some [[0]; [5]; [11]; [13]]%Z.
Proof.
  apply (C10_labels_alias_pvc reverse [[0]; [5]; [11]; [13]]%Z 14 cell22_example).
  - reflexivity.
  - exists 11%Z. split; [by_compute|by left].
Defined.

(** ** Construction of the model *)









(** * Further properties of the layer and of the model *)

(** ** [forward] and the features already on the graph *)

Lemma graph_eq G G' :
  same_topology G G' → ndata G' = ndata G → G' = G.
Proof.
  destruct G, G'. unfold same_topology; simpl. intros (-> & -> & -> & ->) ->. done.
Qed.

Lemma mapR_ext_in {A B} (f g : A → result B) (l : list A) :
  (∀ a, a ∈ l → f a = g a) → mapR f l = mapR g l.
Proof.
  induction l as [|a l IH]; intros Hl; simpl; [done|].
  rewrite (Hl a) by by left. destruct (g a); simpl; [|done].
  rewrite IH; [done|]. intros a' Ha'. apply Hl. by right.
Qed.

Lemma forward_loop_delta L feat cs : ∀ G G' funcs G1 funcs1,
  foldM (forward_step L feat) (G, funcs) cs = OK (G1, funcs1) →
  same_topology G G' →
  ∃ (d : gmap (string * string) Tensor) G1',
    foldM (forward_step L feat) (G', funcs) cs = OK (G1', funcs1) ∧
    same_topology G1 G1' ∧
    ndata G1 = d ∪ ndata G ∧ ndata G1' = d ∪ ndata G'.
Proof.
  induction cs as [|c cs IH]; intros G G' funcs G1 funcs1 Hloop Htop.
  - injection Hloop as <- <-. exists ∅, G'. by rewrite !(left_id_L ∅ (∪)).
  - cbn [foldM] in Hloop. apply bind_OK in Hloop as ([Ga fa] & Hstep & Hrest).
    apply forward_step_OK in Hstep as (Wh & HWh & Hn & -> & ->).
    set (Ga' := with_ndata G' (<[slot c := Wh]> (ndata G'))).
    destruct (IH _ Ga' _ _ _ Hrest) as (d & G1' & Hloop' & Htop1 & Hd & Hd').
    { destruct Htop as (? & ? & ? & ?). by repeat split. }
    exists (d ∪ {[slot c := Wh]}), G1'. split; [|split; [done|]].
    + cbn [foldM]. apply bind_OK. eexists (Ga', _). split; [|exact Hloop'].
      apply forward_step_OK. exists Wh. destruct Htop as (_ & -> & _ & _). done.
    + simpl in Hd, Hd'. rewrite Hd, Hd'.
      by rewrite <- !(assoc_L (∪)), <- !insert_union_singleton_l.
Qed.

Lemma relation_aggregate_agree G G' r sf m m' out :
  same_topology G G' →
  (∀ c, to_canonical_etype G r = OK c →
        ndata G !! (src_type c, sf) = ndata G' !! (src_type c, sf)) →
  relation_aggregate G (r, (copy_u sf m, mean m' out))
  = relation_aggregate G' (r, (copy_u sf m, mean m' out)).
Proof.
  intros (_ & Hnn & Hce & Hed) Hfeat.
  unfold relation_aggregate, to_canonical_etype, get_node_feature, number_of_nodes in *.
  rewrite Hce, Hnn, Hed.
  destruct (filter _ (canonical_etypes G)) as [|c [|? ?]]; simpl; [done| |done].
  by rewrite (Hfeat c eq_refl).
Qed.

(** The features a returning message-passing step writes do not depend on
    the features the graph held before. *)
Lemma forward_update_delta L G G' feat G2 :
  forward_update L G feat = OK G2 → same_topology G G' →
  ∃ (delta : gmap (string * string) Tensor) G2',
    forward_update L G' feat = OK G2' ∧ same_topology G' G2' ∧
    ndata G2 = delta ∪ ndata G ∧ ndata G2' = delta ∪ ndata G' ∧
    ∀ c, c ∈ canonical_etypes G → is_Some (delta !! (dst_type c, "h")).
Proof.
  intros Hu Htop.
  apply forward_update_inv in Hu as (G1 & funcs & aggs & merged & Hloop & Haggs & Hm & ->).
  destruct (forward_loop_delta _ _ _ _ _ _ _ _ Hloop Htop)
    as (d & G1' & Hloop' & Htop1 & Hd & Hd').
  destruct (forward_loop_spec _ _ _ _ _ _ _ Hloop) as (HtopG & Hfuncs & Hslots & _).
  destruct (forward_loop_spec _ _ _ _ _ _ _ Hloop') as (HtopG' & _ & Hslots' & _).
  assert (mapR (relation_aggregate G1') funcs = OK aggs) as Haggs'.
  { rewrite <- Haggs. symmetry. apply mapR_ext_in. intros [r [[sf m] [m' out]]] Hkf.
    apply relation_aggregate_agree; [done|]. intros c Hc.
    rewrite Hfuncs in Hkf.
    apply loop_funcs_elem in Hkf as [Hnil|(c0 & Hc0 & Heq)];
      [by apply elem_of_nil in Hnil|].
    injection Heq as -> -> -> -> ->.
    apply to_canonical_etype_OK in Hc as [Hc Hrel].
    destruct HtopG as (_ & _ & Hce & _). rewrite Hce in Hc.
    destruct (Hslots c Hc) as (Wh & HWh & Hs & _).
    destruct (Hslots' c Hc) as (Wh' & HWh' & Hs' & _).
    unfold slot in Hs, Hs'. rewrite Hrel in Hs, Hs'. rewrite Hs, Hs'. congruence. }
  exists (merged ∪ d), (with_ndata G1' (merged ∪ ndata G1')).
  split; [|split; [|split; [|split]]].
  - unfold forward_update. apply bind_OK. exists (G1', funcs). split.
    { destruct Htop as (_ & _ & Hce' & _). rewrite Hce'. exact Hloop'. }
    unfold multi_update_all. rewrite Haggs'. simpl. by rewrite Hm.
  - destruct HtopG' as (? & ? & ? & ?). by repeat split.
  - simpl. by rewrite Hd, (assoc_L (∪)).
  - simpl. by rewrite Hd', (assoc_L (∪)).
  - intros c Hc.
    assert ((dst_type c, "h") ∈ aggs.*1) as Hin.
    { rewrite Hfuncs in Haggs. apply mapR_Forall2 in Haggs.
      pose proof (loop_funcs_has (canonical_etypes G) [] c Hc) as Hkf.
      apply list_elem_of_lookup in Hkf as [i Hi].
      destruct (Forall2_lookup_l _ _ _ _ _ Haggs Hi) as ([[dd name] A] & Ha & Hagg).
      apply relation_aggregate_inv in Hagg
        as (c' & _ & _ & _ & Hc' & _ & _ & _ & _ & -> & -> & _).
      destruct HtopG as (_ & _ & Hce & _). rewrite <- Hce in Hc.
      rewrite (to_canonical_etype_only _ _ _ _ Hc' Hc eq_refl).
      apply list_elem_of_lookup_2 in Ha.
      by apply (list_elem_of_fmap_2 fst) in Ha. }
    destruct (sum_at_in _ None _ Hin) as [T HT].
    pose proof (cross_sum_fold_lookup _ _ _ Hm (dst_type c, "h")) as Hl.
    rewrite lookup_empty, HT in Hl. exists T. by apply lookup_union_Some_l.
Qed.

(** X1: a call of [forward] that returns can be repeated: on the graph it
    left behind, with the same features, it returns the same dictionary
    and leaves the graph as it is. *)
Theorem X1_forward_repeatable L G feat out G2 :
  forward L G feat = OK (out, G2) → forward L G2 feat = OK (out, G2).
Proof.
  intros [Hu Hc]%forward_inv.
  assert (same_topology G G2) as Htop.
  { apply forward_update_inv in Hu as (G1 & funcs & aggs & merged & Hloop & _ & _ & ->).
    by destruct (forward_loop_spec _ _ _ _ _ _ _ Hloop) as ((? & ? & ? & ?) & _). }
  destruct (forward_update_delta _ _ _ _ _ Hu Htop)
    as (delta & G2' & Hu' & Htop' & Hd & Hd' & _).
  assert (G2' = G2) as ->.
  { apply graph_eq; [done|]. rewrite Hd', Hd, (assoc_L (∪)).
    by rewrite (idemp_L (∪) delta). }
  by apply forward_inv.
Qed.

Lemma X1_forward_repeatable_witness :
  forward citing_layer citing_forward.2 citing_feat
  = OK (citing_forward.1, citing_forward.2).
Proof.
  apply (X1_forward_repeatable citing_layer citing citing_feat).
  vm_compute. reflexivity.
Defined.

Lemma same_topology_sym G G' : same_topology G G' → same_topology G' G.
Proof. unfold same_topology. by intros (-> & -> & -> & ->). Qed.

Lemma all_destinations_same_topology G G' :
  same_topology G G' → all_destinations G → all_destinations G'.
Proof. intros (Hn & Hnn & Hc & He). unfold all_destinations. by rewrite Hn, Hc. Qed.

(** With every node type a destination, the returned dictionary is a
    function of the topology, the weights and the features given. *)
Lemma forward_on_same_topology L G G' feat out G2 :
  forward L G feat = OK (out, G2) → same_topology G G' → all_destinations G →
  ∃ G2', forward L G' feat = OK (out, G2') ∧ same_topology G' G2'.
Proof.
  intros [Hu Hc]%forward_inv Htop Hdst.
  destruct (forward_update_delta _ _ _ _ _ Hu Htop)
    as (delta & G2' & Hu' & Htop' & Hd & Hd' & Hh).
  assert (same_topology G G2) as HtopG.
  { apply forward_update_inv in Hu as (G1 & funcs & aggs & merged & Hloop & _ & _ & ->).
    by destruct (forward_loop_spec _ _ _ _ _ _ _ Hloop) as ((? & ? & ? & ?) & _). }
  assert (∀ t, t ∈ ntypes G → ndata G2' !! (t, "h") = ndata G2 !! (t, "h")) as Hsame.
  { intros t Ht. destruct (all_destinations_lookup _ _ Hdst Ht) as (c & Hc' & <-).
    destruct (Hh c Hc') as [T HT]. rewrite Hd, Hd'.
    by rewrite !(lookup_union_Some_l _ _ _ _ HT). }
  destruct HtopG as (HntG & _). destruct Htop as (Hnt & _). pose proof Htop' as (Hnt' & _).
  destruct (collect_h_total G2') as [out' Hout'].
  { intros t Ht. rewrite Hnt', Hnt in Ht. rewrite (Hsame t Ht).
    apply (collect_h_Some _ _ _ Hc). by rewrite HntG. }
  exists G2'. split; [|done]. apply forward_inv. split; [done|]. rewrite Hout'. f_equal.
  apply map_eq. intros t.
  rewrite (collect_h_spec _ _ Hout' t), (collect_h_spec _ _ Hc t).
  rewrite Hnt', Hnt, HntG. case_decide; [by apply Hsame|done].
Qed.

(** X2: when every node type is a destination, the dictionary [forward]
    returns does not depend on the features already stored on the graph:
    on any graph with the same topology it returns the same dictionary. *)
Theorem X2_forward_store_independent L G G' feat out G2 :
  forward L G feat = OK (out, G2) → same_topology G G' → all_destinations G →
  ∃ G2', forward L G' feat = OK (out, G2').
Proof.
  intros Hf Htop Hdst.
  destruct (forward_on_same_topology _ _ _ _ _ _ Hf Htop Hdst) as (G2' & Hf' & _).
  by exists G2'.
Qed.

Lemma X2_forward_store_independent_witness :
  ∃ G2', forward citing_layer citing_stale citing_feat = OK (citing_forward.1, G2').
Proof.
  apply (X2_forward_store_independent citing_layer citing citing_stale citing_feat
           citing_forward.1 citing_forward.2).
  - vm_compute. reflexivity.
  - done.
  - by_compute.
Defined.

(** X3: [forward] returns only on graphs whose canonical edge types have
    pairwise different relation names; with a shared name the keys of
    [funcs] cannot be resolved. *)
Theorem X3_forward_requires_unique_names L G feat out G2 :
  forward L G feat = OK (out, G2) → NoDup (etypes G).
Proof. apply forward_OK_NoDup. Qed.

Lemma X3_forward_requires_unique_names_witness : NoDup (etypes citing).
Proof.
  apply (X3_forward_requires_unique_names citing_layer citing citing_feat
           citing_forward.1 citing_forward.2).
  vm_compute. reflexivity.
Defined.

(** X4: on a graph that holds no ['h'] feature, [forward] returns only if
    every node type is the destination of some canonical edge type; the
    final comprehension reads ['h'] of every node type. *)
Theorem X4_forward_requires_destinations L G feat out G2 :
  (∀ t, ndata G !! (t, "h") = None) →
  forward L G feat = OK (out, G2) → all_destinations G.
Proof. apply forward_OK_all_destinations. Qed.

Lemma X4_forward_requires_destinations_witness : all_destinations citing.
Proof.
  apply (X4_forward_requires_destinations citing_layer citing citing_feat
           citing_forward.1 citing_forward.2).
  - intros t. apply lookup_empty.
  - vm_compute. reflexivity.
Defined.

(** X5: [forward] returns only if, for every canonical edge type [(s, r, d)],
    the layer owns a weight for [r], the feature dictionary has an entry
    for [s], the width of that entry is the input width of the weight and
    its number of rows is the number of nodes of type [s]. *)
Theorem X5_forward_requires_inputs L G feat out G2 :
  forward L G feat = OK (out, G2) →
  ∀ c, c ∈ canonical_etypes G →
    ∃ lin x, weight L !! rel_name c = Some lin ∧ feat !! src_type c = Some x ∧
             ncols x = in_features lin ∧
             num_nodes G !! src_type c = Some (length (rows x)).
Proof.
  intros [Hu _]%forward_inv c Hc.
  apply forward_update_inv in Hu as (G1 & funcs & aggs & merged & Hloop & _).
  destruct (forward_loop_spec _ _ _ _ _ _ _ Hloop) as (_ & _ & Hslots & _).
  destruct (Hslots c Hc) as (Wh & HWh & _ & Hn).
  unfold Wh_of in HWh. apply bind_OK in HWh as (lin & Hlin%of_option_OK & HWh).
  apply bind_OK in HWh as (x & Hx%of_option_OK & HWh).
  apply Linear_forward_inv in HWh as [Hcols ->].
  exists lin, x. simpl in Hn. rewrite length_map in Hn. done.
Qed.

Lemma X5_forward_requires_inputs_witness :
  ∃ lin x, weight citing_layer !! "citing" = Some lin ∧
           citing_feat !! "paper" = Some x ∧
           ncols x = in_features lin ∧
           num_nodes citing !! "paper" = Some (length (rows x)).
Proof.
  apply (X5_forward_requires_inputs citing_layer citing citing_feat
           citing_forward.1 citing_forward.2 (eq_refl _) ("paper", "citing", "paper")).
  by left.
Defined.

(** ** Construction of the layer and of the model *)




(** The two-layer model on valid inputs. *)
Lemma model_forward_total in_size hidden_size out_size M G :
  graph_wf G → NoDup (etypes G) → all_destinations G →
  model_ok G in_size hidden_size out_size M →
  ∃ h2 G2, (∃ h1 G1, forward (layer1 M) G (embed M) = OK (h1, G1) ∧
                     forward (layer2 M) G1 (tmap leaky_relu <$> h1) = OK (h2, G2)) ∧
    same_topology G G2 ∧
    (∀ t, t ∉ ntypes G → h2 !! t = None) ∧
    (∀ t, t ∈ ntypes G →
       ∃ T n, h2 !! t = Some T ∧ num_nodes G !! t = Some n ∧
              shape T = (n, out_size) ∧ tensor_wf T).
Proof.
  intros Hwf Hnd Hdst (HL1 & HL2 & Hembed).
  destruct (forward_total _ _ _ _ _ Hwf Hnd Hdst HL1 Hembed)
    as (h1 & G1 & Hf1 & Htop & _ & Hh1).
  pose proof Htop as (Hnt & Hnn & Hce & Hed).
  assert (etypes G1 = etypes G) as Het by (unfold etypes; by rewrite Hce).
  assert (feat_ok G1 hidden_size (tmap leaky_relu <$> h1)) as Hfeat1.
  { apply feat_ok_intro. intros c Hc. rewrite Hce in Hc.
    destruct (wf_endpoints G Hwf c Hc) as [Hs _].
    destruct (Hh1 _ Hs) as (T & n & HT & Hn & Hshape & _).
    exists (tmap leaky_relu T), n. rewrite lookup_fmap, HT, Hnn, shape_tmap. done. }
  destruct (forward_total hidden_size out_size (layer2 M) G1 (tmap leaky_relu <$> h1))
    as (h2 & G2 & Hf2 & Htop2 & Hnone & Hh2).
  { by eapply graph_wf_same_topology. }
  { by rewrite Het. }
  { unfold all_destinations. by rewrite Hnt, Hce. }
  { by rewrite Het. }
  { done. }
  exists h2, G2. split; [by exists h1, G1|]. split.
  { by eapply same_topology_trans. }
  split.
  - intros t Ht. apply Hnone. by rewrite Hnt.
  - intros t Ht. destruct (Hh2 t) as (T & n & ? & Hn & ? & ?); [by rewrite Hnt|].
    exists T, n. by rewrite <- Hnn.
Qed.

Lemma HeteroRGCN_forward_unfold M G h1 G1 h2 G2 :
  forward (layer1 M) G (embed M) = OK (h1, G1) →
  forward (layer2 M) G1 (tmap leaky_relu <$> h1) = OK (h2, G2) →
  HeteroRGCN_forward M G = (logits ← of_option KeyError (h2 !! "paper"); OK (logits, G2)).
Proof. intros H1 H2. unfold HeteroRGCN_forward. rewrite H1. simpl. by rewrite H2. Qed.

Lemma HeteroRGCN_forward_inv M G logits G2 :
  HeteroRGCN_forward M G = OK (logits, G2) →
  ∃ h1 G1 h2, forward (layer1 M) G (embed M) = OK (h1, G1) ∧
              forward (layer2 M) G1 (tmap leaky_relu <$> h1) = OK (h2, G2) ∧
              h2 !! "paper" = Some logits.
Proof.
  unfold HeteroRGCN_forward. intros H.
  apply bind_OK in H as ([h1 G1] & Hf1 & H). exists h1, G1.
  apply bind_OK in H as ([h2 G2'] & Hf2 & H). exists h2.
  apply bind_OK in H as (l & Hl%of_option_OK & H).
  injection H as -> ->. done.
Qed.





(** X17: when every node type is a destination, the logits of the model
    depend on its parameters and on the topology only, not on the features
    stored on the graph: a call on any graph with the same topology, for
    instance the graph an earlier call left behind, returns the same
    logits. *)
Theorem X17_model_store_independent M G G' logits G2 :
  HeteroRGCN_forward M G = OK (logits, G2) → same_topology G G' → all_destinations G →
  ∃ G2', HeteroRGCN_forward M G' = OK (logits, G2').
Proof.
  intros (h1 & G1 & h2 & Hf1 & Hf2 & Hl)%HeteroRGCN_forward_inv Htop Hdst.
  destruct (forward_on_same_topology _ _ _ _ _ _ Hf1 Htop Hdst) as (G1' & Hf1' & Htop1').
  destruct (forward_frame _ _ _ _ _ Hf1) as (Htop1 & _).
  assert (same_topology G1 G1') as Htop11.
  { eapply same_topology_trans; [|exact Htop1'].
    eapply same_topology_trans; [|exact Htop]. by apply same_topology_sym. }
  destruct (forward_on_same_topology _ _ _ _ _ _ Hf2 Htop11) as (G2' & Hf2' & _).
  { by eapply all_destinations_same_topology. }
  exists G2'. by rewrite (HeteroRGCN_forward_unfold _ _ _ _ _ _ Hf1' Hf2'), Hl.
Qed.

Lemma X17_model_store_independent_witness :
  ∃ G2', HeteroRGCN_forward citing_model citing_model_forward.2
         = OK (citing_model_forward.1, G2').
Proof.
  apply (X17_model_store_independent citing_model citing citing_model_forward.2
           citing_model_forward.1 citing_model_forward.2).
  - vm_compute. reflexivity.
  - by_compute.
  - by_compute.
Defined.

(** ** The splits of cell 22 *)

(** X9: the three splits cut the permuted [pid] into consecutive pieces:
    together, in order, they are the whole permutation, so every entry of
    [pid] is used exactly once; the training split has at most 800
    entries, the validation split at most 100, and the test split is empty
    unless [pid] has more than 900 entries. *)
Theorem X9_splits_partition permutation PvsC n_conf st :
  (∀ l, permutation l ≡ₚ l) →
  cell22 permutation PvsC n_conf = Some st →
  st_train_idx st ++ st_val_idx st ++ st_test_idx st = permutation (st_pid st) ∧
  split_indices st ≡ₚ st_pid st ∧
  length (st_train_idx st) = length (st_pid st) `min` 800 ∧
  length (st_val_idx st) = (length (st_pid st) - 800) `min` 100 ∧
  length (st_test_idx st) = length (st_pid st) - 900.
Proof.
  intros Hperm. rewrite cell22_eq. intros [= <-]. unfold split_indices. simpl.
  set (s := permutation (pid_of PvsC)).
  assert (take 800 s ++ take 100 (drop 800 s) ++ drop 900 s = s) as Hcut.
  { replace (drop 900 s) with (drop 100 (drop 800 s)) by by rewrite drop_drop.
    by rewrite take_drop, take_drop. }
  assert (length s = length (pid_of PvsC)) as Hlen by apply Permutation_length, Hperm.
  split; [done|]. split; [rewrite Hcut; apply Hperm|].
  rewrite !length_take, !length_drop, Hlen. lia.
Qed.

Lemma X9_splits_partition_witness :
  ∃ st, cell22 reverse [[0]; [5]; [11]; [13]]%Z 14 = Some st ∧
    st_train_idx st ++ st_val_idx st ++ st_test_idx st = reverse (st_pid st) ∧
    split_indices st ≡ₚ st_pid st ∧
    length (st_train_idx st) = length (st_pid st) `min` 800 ∧
    length (st_val_idx st) = (length (st_pid st) - 800) `min` 100 ∧
    length (st_test_idx st) = length (st_pid st) - 900.
Proof.
  eexists. split; [apply cell22_eq|].
  apply (X9_splits_partition reverse [[0]; [5]; [11]; [13]]%Z 14).
  - intros l. apply reverse_Permutation.
  - apply cell22_eq.
Defined.

Lemma omap_cons {A B} (f : A → option B) (x : A) (l : list A) :
  omap f (x :: l) = match f x with Some y => y :: omap f l | None => omap f l end.
Proof. done. Qed.

(** The entries of one row that column selection keeps, tagged with the row. *)
Lemma selected_of_row_length (i : nat) (r : list Z) :
  length (omap (λ j, k ← list_find (λ c, c = j) c_selected; Some (i, k.1)) r)
  = length (filter (λ j, j ∈ c_selected) r).
Proof.
  induction r as [|j r IH]; [done|]. rewrite omap_cons.
  destruct (decide (j ∈ c_selected)) as [Hin|Hnin].
  - rewrite filter_cons_True by done.
    destruct (list_find_elem_of (λ c, c = j) c_selected j Hin eq_refl) as [[k c] Hf].
    rewrite Hf. cbn [mbind option_bind length]. by rewrite IH.
  - rewrite filter_cons_False by done.
    destruct (list_find (λ c, c = j) c_selected) as [[k c]|] eqn:Hf; [|done].
    apply list_find_Some in Hf as (Hk & -> & _).
    destruct Hnin. by eapply list_elem_of_lookup_2.
Qed.

Lemma selected_rows_NoDup (M : sparse) : ∀ s,
  Forall (λ r : list Z, (length (filter (λ j, j ∈ c_selected) r) ≤ 1)%nat) M →
  NoDup (concat (imap (λ i r,
     omap (λ j, k ← list_find (λ c, c = j) c_selected; Some (s + i, k.1)) r) M)).*1 ∧
  ∀ x, x ∈ (concat (imap (λ i r,
     omap (λ j, k ← list_find (λ c, c = j) c_selected; Some (s + i, k.1)) r) M)).*1 →
       (s ≤ x)%nat.
Proof.
  induction M as [|r M IH]; intros s HM.
  - split; [constructor|]. by intros x ?%elem_of_nil.
  - apply Forall_cons in HM as [Hr HM].
    destruct (IH (S s) HM) as [Hnd Hge].
    cbn [imap concat]. rewrite fmap_app.
    assert (imap ((λ i r0, omap (λ j, k ← list_find (λ c, c = j) c_selected;
                                    Some (s + i, k.1)) r0) ∘ S) M
            = imap (λ i r0, omap (λ j, k ← list_find (λ c, c = j) c_selected;
                                    Some (S s + i, k.1)) r0) M) as ->.
    { apply imap_ext. intros i r0 _. simpl.
      by replace (s + S i) with (S (s + i)) by lia. }
    assert (∀ x, x ∈ (omap (λ j, k ← list_find (λ c, c = j) c_selected;
                               Some (s + 0, k.1)) r).*1 → x = s) as Hrow.
    { intros x (p & -> & Hp)%list_elem_of_fmap.
      apply list_elem_of_omap in Hp as (j & _ & Hj).
      destruct (list_find _ _) as [[k c]|]; [|done]. simpl in Hj.
      injection Hj as <-. simpl. lia. }
    split.
    + apply NoDup_app. split; [|split; [|done]].
      * pose proof (selected_of_row_length (s + 0) r) as Hlen.
        destruct (omap _ r) as [|p [|? ?]]; simpl in *; [constructor| |lia].
        apply NoDup_singleton.
      * intros x Hx Hx'. apply Hrow in Hx as ->. apply Hge in Hx'. lia.
    + intros x [Hx|Hx]%elem_of_app.
      * apply Hrow in Hx. lia.
      * apply Hge in Hx. lia.
Qed.

Lemma pid_of_NoDup (PvsC : sparse) :
  Forall (λ r : list Z, (length (filter (λ j, j ∈ c_selected) r) ≤ 1)%nat) PvsC →
  NoDup (pid_of PvsC).
Proof. intros H. by destruct (selected_rows_NoDup PvsC 0 H). Qed.

(** X10: when no paper has two entries in the selected columns, no paper
    index occurs twice in the splits, so the train, validation and test
    splits are pairwise disjoint; and a paper is in some split exactly
    when it has an entry in column 0, 11 or 13 of the original PvsC. *)
Theorem X10_splits_disjoint permutation PvsC n_conf st :
  (∀ l, permutation l ≡ₚ l) →
  Forall (λ r : list Z, (length (filter (λ j, j ∈ c_selected) r) ≤ 1)%nat) PvsC →
  cell22 permutation PvsC n_conf = Some st →
  NoDup (st_train_idx st ++ st_val_idx st ++ st_test_idx st) ∧
  ∀ i, i ∈ split_indices st ↔ ∃ r c, PvsC !! i = Some r ∧ c ∈ r ∧ c ∈ c_selected.
Proof.
  intros Hperm Hone. rewrite cell22_eq. intros [= <-]. unfold split_indices. simpl.
  set (s := permutation (pid_of PvsC)).
  assert (take 800 s ++ take 100 (drop 800 s) ++ drop 900 s = s) as ->.
  { replace (drop 900 s) with (drop 100 (drop 800 s)) by by rewrite drop_drop.
    by rewrite take_drop, take_drop. }
  unfold s. split.
  - rewrite (Hperm _). by apply pid_of_NoDup.
  - intros i. rewrite (Hperm _). apply elem_of_pid_of.
Qed.

Lemma X10_splits_disjoint_witness :
  ∃ st, cell22 reverse [[0]; [5]; [11]; [13]]%Z 14 = Some st ∧
    NoDup (st_train_idx st ++ st_val_idx st ++ st_test_idx st) ∧
    ∀ i, i ∈ split_indices st ↔
         ∃ r c, [[0]; [5]; [11]; [13]]%Z !! i = Some r ∧ c ∈ r ∧ c ∈ c_selected.
Proof.
  eexists. split; [apply cell22_eq|].
  apply (X10_splits_disjoint reverse [[0]; [5]; [11]; [13]]%Z 14).
  - intros l. apply reverse_Permutation.
  - by_compute.
  - apply cell22_eq.
Defined.

(** X11: [labels] has one entry per stored entry of PvsC, in row order:
    the entry is 1 where the column is 11, 2 where it is 13, and the
    column number itself everywhere else; so an entry of conference 1 or 2
    carries the same label as an ICML or VLDB entry. *)
Theorem X11_labels_by_entry permutation PvsC n_conf st :
  cell22 permutation PvsC n_conf = Some st →
  length (st_labels st) = length (concat PvsC) ∧
  ∀ j c, concat PvsC !! j = Some c →
    ∃ l, st_labels st !! j = Some l ∧
         (c = 11%Z → l = 1%Z) ∧ (c = 13%Z → l = 2%Z) ∧
         (c ≠ 11%Z → c ≠ 13%Z → l = c).
Proof.
  rewrite cell22_eq. intros [= <-]. simpl. split; [by rewrite length_map|].
  intros j c Hc. exists (remap c). rewrite list_lookup_fmap, Hc. split; [done|].
  unfold remap. repeat split.
  - by intros ->.
  - by intros ->.
  - intros H11 H13. by rewrite !decide_False.
Qed.

Lemma X11_labels_by_entry_witness :
  length (st_labels cell22_example) = length (concat [[0]; [5]; [11]; [13]]%Z) ∧
  ∀ j c, concat [[0]; [5]; [11]; [13]]%Z !! j = Some c →
    ∃ l, st_labels cell22_example !! j = Some l ∧
         (c = 11%Z → l = 1%Z) ∧ (c = 13%Z → l = 2%Z) ∧
         (c ≠ 11%Z → c ≠ 13%Z → l = c).
Proof.
  apply (X11_labels_by_entry reverse [[0]; [5]; [11]; [13]]%Z 14 cell22_example).
  vm_compute. reflexivity.
Defined.

(** * The training loop (cell 28) *)

(** ** Accuracy *)

Lemma take_idx_Forall2 {A} (xs : list A) idx ys :
  take_idx xs idx = OK ys ↔ Forall2 (λ i y, xs !! i = Some y) idx ys.
Proof.
  unfold take_idx. rewrite mapR_Forall2. split; intros H.
  - eapply Forall2_impl; [exact H|]. intros i y. by rewrite of_option_OK.
  - eapply Forall2_impl; [exact H|]. intros i y. by rewrite of_option_OK.
Qed.

Lemma take_idx_total {A} (xs : list A) idx :
  Forall (λ i, i < length xs) idx → ∃ ys, take_idx xs idx = OK ys.
Proof.
  intros H. apply mapR_total. eapply Forall_impl; [exact H|].
  intros i Hi. destruct (lookup_lt_is_Some_2 xs i Hi) as [y Hy].
  exists y. by rewrite Hy.
Qed.

Lemma take_idx_Err {A} (xs : list A) idx e :
  take_idx xs idx = Err e → e = IndexError ∧ ∃ i, i ∈ idx ∧ (length xs ≤ i)%nat.
Proof.
  unfold take_idx. induction idx as [|i idx IH]; simpl; [done|].
  destruct (xs !! i) as [y|] eqn:Hy; simpl.
  - destruct (mapR _ idx) as [ys|e'] eqn:Hm; simpl; [done|].
    intros [= ->]. destruct (IH eq_refl) as [-> (j & Hj & Hlen)].
    split; [done|]. exists j. split; [by right|done].
  - intros [= <-]. split; [done|]. exists i. split; [by left|].
    by apply lookup_ge_None.
Qed.

Lemma filter_length_all {A} (P : A → Prop) `{∀ x, Decision (P x)} (l : list A) :
  length (filter P l) = length l ↔ Forall P l.
Proof.
  induction l as [|a l IH]; [by split; [constructor|]|].
  destruct (decide (P a)) as [Ha|Ha].
  - rewrite filter_cons_True by done. simpl. rewrite Forall_cons. split.
    + intros [= Hl]. split; [done|]. by apply IH.
    + intros [_ Hl]. f_equal. by apply IH.
  - rewrite filter_cons_False by done. simpl. rewrite Forall_cons. split.
    + intros Hl. pose proof (length_filter P l) as H0. rewrite Hl in H0.
      by apply Nat.nle_succ_diag_l in H0.
    + by intros [? _].
Qed.

Lemma Qc_of_nat_Z n : Qc_of_nat n = Qc_of_Z (Z.of_nat n).
Proof. apply Qc_is_canon. simpl. apply Qred_correct. Qed.

Lemma Qc_of_nat_pos n : 0 < n → (0 < Qc_of_nat n)%Qc.
Proof.
  intros Hn. rewrite Qc_of_nat_Z.
  rewrite <- Z2Qc_inj_0. apply (proj1 (Z2Qc_inj_lt 0 (Z.of_nat n))). lia.
Qed.

Lemma Qc_of_nat_le n m : (n ≤ m)%nat → (Qc_of_nat n ≤ Qc_of_nat m)%Qc.
Proof.
  intros Hn. rewrite !Qc_of_nat_Z.
  apply (proj1 (Z2Qc_inj_le (Z.of_nat n) (Z.of_nat m))). lia.
Qed.

Lemma Qc_of_nat_inj n m : Qc_of_nat n = Qc_of_nat m → n = m.
Proof.
  rewrite !Qc_of_nat_Z. intros H%Z2Qc_inj. lia.
Qed.

(** A fraction [k / n] of counts with [k ≤ n] and [0 < n]. *)
Lemma fraction_range k n :
  (k ≤ n)%nat → 0 < n →
  (0 ≤ Qc_of_nat k / Qc_of_nat n)%Qc ∧ (Qc_of_nat k / Qc_of_nat n ≤ 1)%Qc ∧
  ((Qc_of_nat k / Qc_of_nat n)%Qc = 1%Qc ↔ k = n).
Proof.
  intros Hk Hn. pose proof (Qc_of_nat_pos n Hn) as Hpos.
  assert (Qc_of_nat n ≠ 0%Qc) as Hne.
  { intros Heq. rewrite Heq in Hpos. by apply (irreflexivity Qclt 0%Qc). }
  assert (0 ≤ Qc_of_nat k)%Qc as Hk0.
  { change 0%Qc with (Qc_of_nat 0). apply Qc_of_nat_le. lia. }
  unfold Qcdiv. split; [|split].
  - apply Qcmult_nonneg_nonneg; [done|]. apply Qclt_le_weak. by apply Qcinv_pos.
  - rewrite <- (Qcmult_inv_r (Qc_of_nat n)) by done.
    apply Qcmult_le_mono_nonneg_r; [apply Qclt_le_weak; by apply Qcinv_pos|].
    by apply Qc_of_nat_le.
  - split.
    + intros H1. apply Qc_of_nat_inj.
      rewrite <- (Qcmult_div_r (Qc_of_nat k) (Qc_of_nat n)) by done.
      unfold Qcdiv. by rewrite H1, Qcmult_1_r.
    + intros ->. by apply Qcmult_inv_r.
Qed.

(** X12: the accuracy over an index list is computed exactly when every
    index is within both the predictions and the labels (otherwise an
    IndexError is raised); it is NaN for an empty index list, and otherwise
    a number between 0 and 1 that is 1 exactly when every selected
    prediction equals its label. *)
Theorem X12_accuracy pred labels idx :
  ((∃ v, accuracy pred labels idx = OK v) ↔
   Forall (λ i, i < length pred ∧ i < length labels) idx) ∧
  (∀ e, accuracy pred labels idx = Err e → e = IndexError) ∧
  (∀ v, accuracy pred labels idx = OK v →
     (idx = [] ∧ v = NaN) ∨
     (idx ≠ [] ∧ ∃ x, v = Num x ∧ (0 ≤ x)%Qc ∧ (x ≤ 1)%Qc ∧
        (x = 1%Qc ↔ ∀ i, i ∈ idx → Z.of_nat <$> pred !! i = labels !! i))).
Proof.
  unfold accuracy. split; [|split].
  - split.
    + intros (v & Hv). apply bind_OK in Hv as (p & Hp%take_idx_Forall2 & Hv).
      apply bind_OK in Hv as (l & Hl%take_idx_Forall2 & _).
      apply Forall_forall. intros i Hi.
      apply list_elem_of_lookup in Hi as [j Hj].
      destruct (Forall2_lookup_l _ _ _ _ _ Hp Hj) as (? & _ & ?%lookup_lt_Some).
      destruct (Forall2_lookup_l _ _ _ _ _ Hl Hj) as (? & _ & ?%lookup_lt_Some).
      done.
    + intros Hidx.
      destruct (take_idx_total pred idx) as [p Hp].
      { eapply Forall_impl; [exact Hidx|]. by intros i [? _]. }
      destruct (take_idx_total labels idx) as [l Hl].
      { eapply Forall_impl; [exact Hidx|]. by intros i [_ ?]. }
      exists (mean_equal p l). by rewrite Hp; simpl; rewrite Hl.
  - intros e. destruct (take_idx pred idx) as [p|e1] eqn:Hp; simpl.
    + destruct (take_idx labels idx) as [l|e2] eqn:Hl; simpl; [done|].
      intros [= <-]. by apply take_idx_Err in Hl as [-> _].
    + intros [= <-]. by apply take_idx_Err in Hp as [-> _].
  - intros v Hv. apply bind_OK in Hv as (p & Hp%take_idx_Forall2 & Hv).
    apply bind_OK in Hv as (l & Hl%take_idx_Forall2 & [= <-]).
    pose proof (Forall2_length _ _ _ Hp) as Hlp.
    pose proof (Forall2_length _ _ _ Hl) as Hll.
    destruct (decide (idx = [])) as [->|Hne].
    { left. apply Forall2_nil_inv_l in Hp as ->. done. }
    right. split; [done|].
    assert (0 < length p) as Hn.
    { rewrite <- Hlp. destruct idx; [done|simpl; lia]. }
    unfold mean_equal. destruct p as [|p0 p'] eqn:Hpe; [simpl in Hn; lia|].
    rewrite <- Hpe in *.
    set (k := length (filter (λ pl : nat * Z, Z.of_nat pl.1 = pl.2) (zip p l))).
    assert (length (zip p l) = length p) as Hz by (rewrite length_zip; lia).
    assert (k ≤ length p)%nat as Hk.
    { unfold k. rewrite <- Hz. apply length_filter. }
    destruct (fraction_range k (length p) Hk Hn) as (H0 & H1 & Heq).
    eexists. split; [done|]. split; [done|]. split; [done|].
    rewrite Heq. unfold k. rewrite <- Hz, filter_length_all.
    rewrite Forall_forall. split.
    + intros Hall i Hi. apply list_elem_of_lookup in Hi as [j Hj].
      destruct (Forall2_lookup_l _ _ _ _ _ Hp Hj) as (a & Ha & Hpa).
      destruct (Forall2_lookup_l _ _ _ _ _ Hl Hj) as (b & Hb & Hlb).
      rewrite Hpa, Hlb. simpl. f_equal.
      apply (Hall (a, b)). apply list_elem_of_lookup. exists j.
      by rewrite lookup_zip_with, Ha, Hb.
    + intros Hall [a b] Hab. apply list_elem_of_lookup in Hab as [j Hj].
      rewrite lookup_zip_with in Hj.
      destruct (p !! j) as [a'|] eqn:Ha; [|done]. simpl in Hj.
      destruct (l !! j) as [b'|] eqn:Hb; [|done]. injection Hj as -> ->.
      destruct (Forall2_lookup_r _ _ _ _ _ Hp Ha) as (i & Hi & Hpa).
      destruct (Forall2_lookup_r _ _ _ _ _ Hl Hb) as (i' & Hi' & Hlb).
      assert (i' = i) as -> by congruence.
      specialize (Hall i (list_elem_of_lookup_2 _ _ _ Hi)).
      rewrite Hpa, Hlb in Hall. simpl in *. congruence.
Qed.

Lemma X12_accuracy_witness :
  ([0; 1] = [] ∧ Num (q 1 2) = NaN) ∨
  ([0; 1] ≠ [] ∧ ∃ x, Num (q 1 2) = Num x ∧ (0 ≤ x)%Qc ∧ (x ≤ 1)%Qc ∧
     (x = 1%Qc ↔ ∀ i, i ∈ [0; 1] →
        Z.of_nat <$> [2; 0; 1] !! i = [2; 1; 1]%Z !! i)).
Proof.
  apply (proj2 (proj2 (X12_accuracy [2; 0; 1] [2; 1; 1]%Z [0; 1]))).
  by_compute.
Defined.

(** ** The loop *)

Lemma run_bind_Ret {A B} (r : run A) (k : A → run B) (b : B) :
  r ≫= k = Ret b ↔ ∃ a, r = Ret a ∧ k a = Ret b.
Proof.
  destruct r as [a|e]; simpl; split.
  - intros H. by exists a.
  - by intros (a' & [= <-] & H).
  - done.
  - by intros (a' & [=] & _).
Qed.

Lemma lift_Ret {A} (r : result A) (a : A) : lift r = Ret a ↔ r = OK a.
Proof. destruct r; simpl; split; congruence. Qed.

Lemma num_lt_true a v :
  num_lt a v = true →
  ∃ y, v = Num y ∧
    match a with
    | PyInt z => (Qc_of_Z z < y)%Qc
    | PyTensor (Num x) => (x < y)%Qc
    | PyTensor NaN => False
    end.
Proof.
  destruct v as [y|]; [|by destruct a as [|[|]]].
  intros H. exists y. split; [done|].
  destruct a as [z|[x|]]; simpl in H; [| |done]; by apply bool_decide_eq_true in H.
Qed.

Lemma epoch_unfold {St} (tr : trainer St) D (st : loop_state St) e m G1 :
  epoch_metrics tr D (ls_opt st) (ls_graph st) = OK (m, G1) →
  epoch tr D st e =
    (printed ←
       (if decide (e mod 5 = 0) then
          bv ← item (track_best (ls_best st) m).1;
          bt ← item (track_best (ls_best st) m).2;
          Ret (ls_printed st ++
                 [mkLine e (m_loss m) (m_train_acc m) (m_val_acc m) bv (m_test_acc m) bt])
        else Ret (ls_printed st));
     Ret (mkLoop (opt_step tr (ls_opt st)) G1 (track_best (ls_best st) m) printed)).
Proof. intros H. unfold epoch. by rewrite H. Qed.

(** The first epoch prints, so it must have replaced the integer 0. *)
Lemma epoch_0_Ret {St} (tr : trainer St) D (st st' : loop_state St) :
  ls_best st = (PyInt 0, PyInt 0) →
  epoch tr D st 0 = Ret st' →
  ∃ m G1, epoch_metrics tr D (ls_opt st) (ls_graph st) = OK (m, G1) ∧
          num_lt (PyInt 0) (m_val_acc m) = true.
Proof.
  intros Hb. unfold epoch. rewrite run_bind_Ret.
  intros ([m G1] & Hm%lift_Ret & H). exists m, G1. split; [done|].
  rewrite Hb in H. unfold track_best in H. cbn [fst snd] in H.
  destruct (num_lt (PyInt 0) (m_val_acc m)); [done|].
  rewrite decide_True in H by done. simpl in H. done.
Qed.

Lemma first_print {St} (tr : trainer St) D s0 G n m G1 :
  epoch_metrics tr D s0 G = OK (m, G1) →
  num_lt (PyInt 0) (m_val_acc m) = false →
  train_loop tr D s0 G (S n) = Raise AttributeError.
Proof.
  intros Hm Hlt. unfold train_loop. cbn [seq foldR].
  rewrite (epoch_unfold tr D (mkLoop s0 G (PyInt 0, PyInt 0) []) 0 m G1 Hm).
  cbn [ls_best]. unfold track_best. cbn [fst snd]. by rewrite Hlt.
Qed.

Lemma num_lt_int_0 v :
  num_lt (PyInt 0) v = true ↔ ∃ x, v = Num x ∧ (0 < x)%Qc.
Proof.
  split.
  - intros (y & -> & Hy)%num_lt_true. rewrite Z2Qc_inj_0 in Hy. by exists y.
  - intros (x & -> & Hx). simpl. apply bool_decide_eq_true. by rewrite Z2Qc_inj_0.
Qed.

(** X13: when the validation accuracy of the first epoch is not a number
    greater than 0 (it is 0, or NaN because the validation split is
    empty), [best_val_acc] is still the integer 0 at the first print and
    the loop stops there with an AttributeError. *)
Theorem X13_first_print_needs_update {St} (tr : trainer St) D s0 G n m G1 :
  epoch_metrics tr D s0 G = OK (m, G1) →
  (∀ x, m_val_acc m = Num x → (x ≤ 0)%Qc) →
  train_loop tr D s0 G (S n) = Raise AttributeError.
Proof.
  intros Hm Hval. apply (first_print tr D s0 G n m G1 Hm).
  destruct (num_lt (PyInt 0) (m_val_acc m)) eqn:Hlt; [|done].
  apply num_lt_int_0 in Hlt as (y & Hy & Hlt).
  specialize (Hval y Hy). by apply Qclt_not_le in Hlt.
Qed.

Lemma X13_first_print_needs_update_witness :
  train_loop (frozen citing_model) citing_data_no_val () citing 100
  = Raise AttributeError.
Proof.
  apply (X13_first_print_needs_update (frozen citing_model) citing_data_no_val ()
           citing 99 citing_first_metrics.1 citing_first_metrics.2).
  - vm_compute. reflexivity.
  - intros x Hx. vm_compute in Hx. discriminate.
Defined.

(** ** What the loop keeps *)

Lemma track_best_tensors b m : tensors b → tensors (track_best b m).
Proof.
  intros (v & t & ->). unfold track_best.
  destruct (num_lt _ _); [by eexists _, _|by exists v, t].
Qed.

Lemma track_best_true b m :
  num_lt b.1 (m_val_acc m) = true →
  track_best b m = (PyTensor (m_val_acc m), PyTensor (m_test_acc m)).
Proof. intros H. unfold track_best. by rewrite H. Qed.

Lemma track_best_false b m :
  num_lt b.1 (m_val_acc m) = false → track_best b m = b.
Proof. intros H. unfold track_best. by rewrite H. Qed.

Lemma num_lt_false_tensor b v x :
  num_lt (PyTensor (Num b)) v = false → v = Num x → (x ≤ b)%Qc.
Proof.
  intros H ->. simpl in H. apply bool_decide_eq_false in H.
  by apply Qcnot_lt_le.
Qed.

(** From a tensor on, [best_val_acc] is the largest validation accuracy
    seen and [best_test_acc] the test accuracy of the first epoch that
    reached it. *)
Lemma track_fold ms : ∀ b0 t0,
  (foldl track_best (PyTensor (Num b0), PyTensor t0) ms
     = (PyTensor (Num b0), PyTensor t0) ∧
   ∀ j m' x, ms !! j = Some m' → m_val_acc m' = Num x → (x ≤ b0)%Qc) ∨
  (∃ k m b, ms !! k = Some m ∧ m_val_acc m = Num b ∧ (b0 < b)%Qc ∧
     foldl track_best (PyTensor (Num b0), PyTensor t0) ms
       = (PyTensor (Num b), PyTensor (m_test_acc m)) ∧
     ∀ j m' x, ms !! j = Some m' → m_val_acc m' = Num x →
       (x ≤ b)%Qc ∧ (j < k → (x < b)%Qc)).
Proof.
  induction ms as [|m ms IH]; intros b0 t0.
  - left. split; [done|]. by intros j m' x.
  - cbn [foldl].
    destruct (num_lt (PyTensor (Num b0), PyTensor t0).1 (m_val_acc m)) eqn:Hlt.
    + rewrite (track_best_true _ _ Hlt).
      apply num_lt_true in Hlt as (y & Hy & Hlt). cbn [fst] in Hlt.
      rewrite Hy. right.
      destruct (IH y (m_test_acc m)) as [[Hst Hle] | (k & mk & b & Hk & Hb & Hyb & Hf & Hall)].
      * exists 0, m, y. split; [done|]. split; [done|]. split; [done|].
        split; [done|]. intros [|j] m' x Hj Hx.
        -- simpl in Hj. injection Hj as <-. rewrite Hy in Hx. injection Hx as <-.
           split; [apply Qcle_refl|lia].
        -- split; [by eapply Hle|lia].
      * exists (S k), mk, b. split; [done|]. split; [done|].
        split; [by eapply Qclt_trans|]. split; [done|].
        intros [|j] m' x Hj Hx.
        -- simpl in Hj. injection Hj as <-. rewrite Hy in Hx. injection Hx as <-.
           split; [by apply Qclt_le_weak|done].
        -- destruct (Hall j m' x Hj Hx) as [H1 H2]. split; [done|].
           intros ?. apply H2. lia.
    + rewrite (track_best_false _ _ Hlt). cbn [fst] in Hlt.
      destruct (IH b0 t0) as [[Hst Hle] | (k & mk & b & Hk & Hb & Hyb & Hf & Hall)].
      * left. split; [done|]. intros [|j] m' x Hj Hx.
        -- simpl in Hj. injection Hj as <-. by eapply num_lt_false_tensor.
        -- by eapply Hle.
      * right. exists (S k), mk, b. split; [done|]. split; [done|].
        split; [done|]. split; [done|].
        intros [|j] m' x Hj Hx.
        -- simpl in Hj. injection Hj as <-.
           pose proof (num_lt_false_tensor _ _ _ Hlt Hx) as Hle.
           split; [apply Qclt_le_weak|intros _]; by eapply Qcle_lt_trans.
        -- destruct (Hall j m' x Hj Hx) as [H1 H2]. split; [done|].
           intros ?. apply H2. lia.
Qed.

Lemma item_pair (b : py_num * py_num) bv bt :
  item b.1 = Ret bv → item b.2 = Ret bt → b = (PyTensor bv, PyTensor bt).
Proof. destruct b as [[z|v] [z'|t]]; simpl; try done. by intros [= ->] [= ->]. Qed.

(** A loop that returns has computed the metrics of every epoch, stepped
    the optimizer once per epoch and printed at the multiples of 5: the
    metrics of that epoch and the best values up to and including it. *)
Lemma loop_history {St} (tr : trainer St) D n : ∀ a st st',
  foldR (epoch tr D) st (seq a n) = Ret st' →
  ∃ ms, history tr D (ls_opt st) (ls_graph st) n = OK ms ∧ length ms = n ∧
    ls_best st' = foldl track_best (ls_best st) ms ∧
    ls_opt st' = Nat.iter n (opt_step tr) (ls_opt st) ∧
    l_epoch <$> ls_printed st'
      = (l_epoch <$> ls_printed st) ++ filter (λ e, e mod 5 = 0) (seq a n) ∧
    ∀ l, l ∈ ls_printed st' → l ∈ ls_printed st ∨
      ∃ k m, ms !! k = Some m ∧
        l = mkLine (a + k) (m_loss m) (m_train_acc m) (m_val_acc m) (l_best_val_acc l)
                   (m_test_acc m) (l_best_test_acc l) ∧
        foldl track_best (ls_best st) (take (S k) ms)
          = (PyTensor (l_best_val_acc l), PyTensor (l_best_test_acc l)).
Proof.
  induction n as [|n IH]; intros a st st'.
  - simpl. intros [= <-]. exists []. rewrite app_nil_r.
    repeat (split; [done|]). intros l Hl. by left.
  - cbn [seq foldR]. rewrite run_bind_Ret. intros (st1 & He & Hrest).
    pose proof He as He'. unfold epoch in He'. rewrite run_bind_Ret in He'.
    destruct He' as ([m G1] & Hm%lift_Ret & _).
    rewrite (epoch_unfold _ _ _ _ _ _ Hm) in He.
    apply run_bind_Ret in He as (printed & Hpr & [= <-]).
    destruct (IH _ _ _ Hrest) as (ms & Hms & Hlen & Hbest & Hopt & Hprinted & Hlines).
    cbn [ls_opt ls_graph ls_best ls_printed] in *.
    exists (m :: ms). split.
    { cbn [history]. rewrite Hm. cbn. by rewrite Hms. }
    split; [by cbn [length]; rewrite Hlen|]. split; [done|]. split.
    { rewrite Hopt. symmetry. apply Nat.iter_succ_r. }
    assert (∀ l, l ∈ printed → l ∈ ls_printed st ∨
              l = mkLine a (m_loss m) (m_train_acc m) (m_val_acc m) (l_best_val_acc l)
                         (m_test_acc m) (l_best_test_acc l) ∧
              track_best (ls_best st) m
                = (PyTensor (l_best_val_acc l), PyTensor (l_best_test_acc l))) as Hnew.
    { intros l Hl. destruct (decide (a mod 5 = 0)) as [Ha|Ha].
      - apply run_bind_Ret in Hpr as (bv & Hbv & Hpr).
        apply run_bind_Ret in Hpr as (bt & Hbt & [= <-]).
        apply elem_of_app in Hl as [Hl | ->%list_elem_of_singleton]; [by left|].
        right. split; [done|]. by apply item_pair.
      - injection Hpr as <-. by left. }
    split.
    + rewrite Hprinted. destruct (decide (a mod 5 = 0)) as [Ha|Ha].
      * rewrite filter_cons_True by done.
        apply run_bind_Ret in Hpr as (bv & _ & Hpr).
        apply run_bind_Ret in Hpr as (bt & _ & [= <-]).
        rewrite fmap_app. cbn. by rewrite <- app_assoc.
      * rewrite filter_cons_False by done. by injection Hpr as <-.
    + intros l Hl. destruct (Hlines l Hl) as [Hin | (k & mk & Hk & Hl' & Hb)].
      * destruct (Hnew l Hin) as [? | [Hl' Hb]]; [by left|].
        right. exists 0, m. rewrite Nat.add_0_r. done.
      * right. exists (S k), mk. split; [done|]. split; [|done].
        by rewrite Nat.add_succ_r.
Qed.

(** X14: when the loop returns after at least one epoch, [best_val_acc] is
    a tensor holding the largest validation accuracy of all epochs, a
    number greater than 0, and [best_test_acc] is the test accuracy of the
    first epoch whose validation accuracy reached that maximum. *)
Theorem X14_best_is_first_maximum {St} (tr : trainer St) D s0 G n st :
  train_loop tr D s0 G n = Ret st → 0 < n →
  ∃ ms k m b,
    history tr D s0 G n = OK ms ∧ length ms = n ∧
    ms !! k = Some m ∧ m_val_acc m = Num b ∧ (0 < b)%Qc ∧
    ls_best st = (PyTensor (Num b), PyTensor (m_test_acc m)) ∧
    ∀ j m' x, ms !! j = Some m' → m_val_acc m' = Num x →
      (x ≤ b)%Qc ∧ (j < k → (x < b)%Qc).
Proof.
  intros Hloop Hn. destruct n as [|n]; [lia|].
  destruct (loop_history tr D (S n) 0 _ _ Hloop) as (ms & Hms & Hlen & Hbest & _).
  cbn [ls_opt ls_graph ls_best] in *.
  unfold train_loop in Hloop. cbn [seq foldR] in Hloop.
  apply run_bind_Ret in Hloop as (st1 & He & _).
  apply epoch_0_Ret in He as (m0 & G1 & Hm0 & Hlt); [|done].
  cbn [ls_opt ls_graph] in Hm0.
  destruct ms as [|m ms]; [done|].
  assert (m = m0) as ->.
  { cbn [history] in Hms. rewrite Hm0 in Hms. cbn in Hms.
    destruct (history tr D (opt_step tr s0) G1 n); [|done]. by injection Hms. }
  cbn [foldl] in Hbest.
  assert (num_lt (PyInt 0, PyInt 0).1 (m_val_acc m0) = true) as Hlt' by done.
  rewrite (track_best_true _ _ Hlt') in Hbest.
  apply num_lt_true in Hlt as (y & Hy & Hlt). rewrite Z2Qc_inj_0 in Hlt.
  rewrite Hy in Hbest.
  destruct (track_fold ms y (m_test_acc m0))
    as [[Hst Hle] | (k & mk & b & Hk & Hb & Hyb & Hf & Hall)].
  - exists (m0 :: ms), 0, m0, y. split; [done|]. split; [done|]. split; [done|].
    split; [done|]. split; [done|]. split; [by rewrite Hbest|].
    intros [|j] m' x Hj Hx.
    + simpl in Hj. injection Hj as <-. rewrite Hy in Hx. injection Hx as <-.
      split; [apply Qcle_refl|lia].
    + split; [by eapply Hle|lia].
  - exists (m0 :: ms), (S k), mk, b. split; [done|]. split; [done|]. split; [done|].
    split; [done|]. split; [by eapply Qclt_trans|]. split; [by rewrite Hbest|].
    intros [|j] m' x Hj Hx.
    + simpl in Hj. injection Hj as <-. rewrite Hy in Hx. injection Hx as <-.
      split; [by apply Qclt_le_weak|done].
    + destruct (Hall j m' x Hj Hx) as [H1 H2]. split; [done|].
      intros ?. apply H2. lia.
Qed.

Lemma X14_best_is_first_maximum_witness :
  ∃ ms k m b,
    history (frozen citing_model) citing_data () citing 6 = OK ms ∧ length ms = 6 ∧
    ms !! k = Some m ∧ m_val_acc m = Num b ∧ (0 < b)%Qc ∧
    ls_best citing_loop = (PyTensor (Num b), PyTensor (m_test_acc m)) ∧
    ∀ j m' x, ms !! j = Some m' → m_val_acc m' = Num x →
      (x ≤ b)%Qc ∧ (j < k → (x < b)%Qc).
Proof.
  apply (X14_best_is_first_maximum (frozen citing_model) citing_data () citing 6
           citing_loop).
  - vm_compute. reflexivity.
  - lia.
Defined.

(** X15: a loop that returns has stepped the optimizer once per epoch and
    has printed one line for each epoch that is a multiple of 5, in
    order; the line of epoch [e] shows the metrics of epoch [e] and, as
    best values, the result of the updates up to and including epoch
    [e]. *)
Theorem X15_steps_and_prints {St} (tr : trainer St) D s0 G n st :
  train_loop tr D s0 G n = Ret st →
  ∃ ms, history tr D s0 G n = OK ms ∧
    ls_opt st = Nat.iter n (opt_step tr) s0 ∧
    l_epoch <$> ls_printed st = filter (λ e, e mod 5 = 0) (seq 0 n) ∧
    ∀ l, l ∈ ls_printed st →
      ∃ m, ms !! l_epoch l = Some m ∧
        l_loss l = m_loss m ∧ l_train_acc l = m_train_acc m ∧
        l_val_acc l = m_val_acc m ∧ l_test_acc l = m_test_acc m ∧
        foldl track_best (PyInt 0, PyInt 0) (take (S (l_epoch l)) ms)
          = (PyTensor (l_best_val_acc l), PyTensor (l_best_test_acc l)).
Proof.
  intros Hloop.
  destruct (loop_history tr D n 0 _ _ Hloop) as (ms & Hms & _ & _ & Hopt & Hpr & Hlines).
  cbn [ls_opt ls_graph ls_best ls_printed] in *.
  exists ms. split; [done|]. split; [done|]. split; [done|].
  intros l Hl. destruct (Hlines l Hl) as [Hin | (k & m & Hk & Hl' & Hb)].
  { by apply elem_of_nil in Hin. }
  exists m. rewrite Hl'. cbn [l_epoch l_loss l_train_acc l_val_acc l_test_acc
                             l_best_val_acc l_best_test_acc].
  rewrite Hl' in Hb. cbn [l_best_val_acc l_best_test_acc] in Hb.
  done.
Qed.

Lemma X15_steps_and_prints_witness :
  ∃ ms, history (frozen citing_model) citing_data () citing 6 = OK ms ∧
    ls_opt citing_loop = Nat.iter 6 (opt_step (frozen citing_model)) () ∧
    l_epoch <$> ls_printed citing_loop = filter (λ e, e mod 5 = 0) (seq 0 6) ∧
    ∀ l, l ∈ ls_printed citing_loop →
      ∃ m, ms !! l_epoch l = Some m ∧
        l_loss l = m_loss m ∧ l_train_acc l = m_train_acc m ∧
        l_val_acc l = m_val_acc m ∧ l_test_acc l = m_test_acc m ∧
        foldl track_best (PyInt 0, PyInt 0) (take (S (l_epoch l)) ms)
          = (PyTensor (l_best_val_acc l), PyTensor (l_best_test_acc l)).
Proof.
  apply (X15_steps_and_prints (frozen citing_model) citing_data () citing 6 citing_loop).
  vm_compute. reflexivity.
Defined.

(** ** The loop on valid inputs *)

Lemma model_ok_same_topology G G' i h o M :
  same_topology G G' → model_ok G i h o M → model_ok G' i h o M.
Proof.
  intros (Hn & Hnn & Hc & He). unfold model_ok, feat_ok, etypes.
  by rewrite Hnn, Hc.
Qed.

Lemma loop_inputs_ok_same_topology {St} (tr : trainer St) D i h o G G' :
  same_topology G G' → loop_inputs_ok tr D i h o G → loop_inputs_ok tr D i h o G'.
Proof.
  intros Htop (Hwf & Hnd & Hdst & Hmodel & Hout & (np & Hp & Hnp & Hidx) & Hlab).
  pose proof Htop as (Hn & Hnn & Hc & He).
  split; [by eapply graph_wf_same_topology|].
  split; [by unfold etypes; rewrite Hc|].
  split; [by eapply all_destinations_same_topology|].
  split; [intros s; by eapply model_ok_same_topology|].
  split; [done|]. split; [|done].
  exists np. by rewrite Hn, Hnn.
Qed.

Lemma argmax1_total T :
  tensor_wf T → 0 < ncols T →
  ∃ pred, argmax1 T = OK pred ∧ length pred = length (rows T).
Proof.
  intros Hwf Hpos. unfold argmax1.
  destruct (mapR_total (λ r : list Qc,
              match r with [] => Err IndexError | x :: r' => OK (argmax_from 0 x 1 r') end)
              (rows T)) as [pred Hpred].
  { eapply Forall_impl; [exact Hwf|]. intros [|x r] Hr; simpl in Hr; [lia|by eexists]. }
  exists pred. split; [done|].
  apply mapR_Forall2 in Hpred. symmetry. by eapply Forall2_length.
Qed.

Lemma accuracy_total pred labels idx :
  Forall (λ i, i < length pred ∧ i < length labels) idx →
  ∃ v, accuracy pred labels idx = OK v.
Proof.
  intros H. unfold accuracy.
  destruct (take_idx_total pred idx) as [p Hp].
  { eapply Forall_impl; [exact H|]. by intros i [? ?]. }
  destruct (take_idx_total labels idx) as [l Hl].
  { eapply Forall_impl; [exact H|]. by intros i [? ?]. }
  rewrite Hp. cbn. rewrite Hl. cbn. by eexists.
Qed.

Lemma cross_entropy_total {St} (tr : trainer St) logits labels idx :
  Forall (λ i, i < length (rows logits) ∧ i < length labels) idx →
  Forall (λ i, ∀ z, labels !! i = Some z →
                 (0 ≤ z < Z.of_nat (ncols logits))%Z ∨ z = (-100)%Z) idx →
  ∃ v, cross_entropy tr logits labels idx = OK v.
Proof.
  intros H Hlab. unfold cross_entropy.
  destruct (take_idx_total (rows logits) idx) as [x Hx].
  { eapply Forall_impl; [exact H|]. by intros i [? ?]. }
  destruct (take_idx_total labels idx) as [t Ht].
  { eapply Forall_impl; [exact H|]. by intros i [? ?]. }
  rewrite Hx. cbn. rewrite Ht. cbn. rewrite decide_True; [by eexists|].
  apply take_idx_Forall2 in Ht. clear Hx H.
  induction Ht as [|i z idx t Hz _ IH]; [constructor|].
  apply Forall_cons in Hlab as [Hi Hlab]. constructor; [by apply Hi|by apply IH].
Qed.

(** On valid inputs an epoch computes its metrics, and leaves a graph on
    which the next one does. *)
Lemma epoch_metrics_total {St} (tr : trainer St) D i h o s G :
  loop_inputs_ok tr D i h o G →
  ∃ m G1, epoch_metrics tr D s G = OK (m, G1) ∧ same_topology G G1.
Proof.
  intros (Hwf & Hnd & Hdst & Hmodel & Hout & (np & Hp & Hnp & Hidx) & Hlab).
  destruct (model_forward_total _ _ _ _ _ Hwf Hnd Hdst (Hmodel s))
    as (h2 & G2 & (h1 & G1 & Hf1 & Hf2) & Htop & _ & Hh2).
  destruct (Hh2 "paper" Hp) as (logits & n & Hl & Hn & Hs & Hw).
  rewrite Hnp in Hn. injection Hn as <-.
  unfold shape in Hs. injection Hs as Hrows Hcols.
  apply Forall_app in Hidx as [Htrain Hidx]. apply Forall_app in Hidx as [Hval Htest].
  destruct (cross_entropy_total tr logits (labels D) (train_idx D)) as [loss Hloss].
  { by rewrite Hrows. }
  { by rewrite Hcols. }
  destruct (argmax1_total logits Hw) as (pred & Hpred & Hlen); [by rewrite Hcols|].
  rewrite Hrows in Hlen.
  destruct (accuracy_total pred (labels D) (train_idx D)) as [a1 Ha1]; [by rewrite Hlen|].
  destruct (accuracy_total pred (labels D) (val_idx D)) as [a2 Ha2]; [by rewrite Hlen|].
  destruct (accuracy_total pred (labels D) (test_idx D)) as [a3 Ha3]; [by rewrite Hlen|].
  exists (mkMetrics loss a1 a2 a3), G2. split; [|done].
  unfold epoch_metrics.
  rewrite (HeteroRGCN_forward_unfold _ _ _ _ _ _ Hf1 Hf2), Hl. cbn.
  rewrite Hloss. cbn. rewrite Hpred. cbn. rewrite Ha1. cbn. rewrite Ha2. cbn.
  by rewrite Ha3.
Qed.

Lemma history_total {St} (tr : trainer St) D i h o n : ∀ s G,
  loop_inputs_ok tr D i h o G →
  ∃ ms, history tr D s G n = OK ms ∧ length ms = n.
Proof.
  induction n as [|n IH]; intros s G Hok; [by exists []|].
  destruct (epoch_metrics_total tr D i h o s G Hok) as (m & G1 & Hm & Htop).
  destruct (IH (opt_step tr s) G1) as (ms & Hms & Hlen).
  { by eapply loop_inputs_ok_same_topology. }
  exists (m :: ms). cbn [history]. rewrite Hm. cbn. rewrite Hms. cbn.
  by rewrite Hlen.
Qed.

(** Once [best_val_acc] is a tensor the loop runs to its end. *)
Lemma loop_tail_total {St} (tr : trainer St) D i h o n : ∀ a st,
  loop_inputs_ok tr D i h o (ls_graph st) → tensors (ls_best st) →
  ∃ st', foldR (epoch tr D) st (seq a n) = Ret st'.
Proof.
  induction n as [|n IH]; intros a st Hok Hb; [by eexists|].
  destruct (epoch_metrics_total tr D i h o (ls_opt st) _ Hok) as (m & G1 & Hm & Htop).
  cbn [seq foldR]. rewrite (epoch_unfold _ _ _ _ _ _ Hm).
  destruct (track_best_tensors _ m Hb) as (v & t & Hbest). rewrite Hbest.
  cbn [fst snd item].
  destruct (decide (a mod 5 = 0)); cbn [mbind run_bind mret run_ret].
  - apply IH; cbn [ls_graph ls_best].
    + by eapply loop_inputs_ok_same_topology.
    + by exists v, t.
  - apply IH; cbn [ls_graph ls_best].
    + by eapply loop_inputs_ok_same_topology.
    + by exists v, t.
Qed.

(** X16: on valid inputs the metrics of every epoch are computed, and the
    loop has two outcomes only, decided by the first epoch: it runs to its
    end when the first validation accuracy is a number greater than 0, and
    stops at the first print with an AttributeError otherwise. *)
Theorem X16_loop_outcome {St} (tr : trainer St) D in_size hidden_size out_size s0 G n :
  loop_inputs_ok tr D in_size hidden_size out_size G → 0 < n →
  ∃ ms m, history tr D s0 G n = OK ms ∧ length ms = n ∧ ms !! 0 = Some m ∧
    ((∃ st, train_loop tr D s0 G n = Ret st) ↔
       ∃ x, m_val_acc m = Num x ∧ (0 < x)%Qc) ∧
    (train_loop tr D s0 G n = Raise AttributeError ↔
       ∀ x, m_val_acc m = Num x → (x ≤ 0)%Qc).
Proof.
  intros Hok Hn. destruct n as [|n]; [lia|].
  destruct (history_total tr D in_size hidden_size out_size (S n) s0 G Hok)
    as (ms & Hms & Hlen).
  destruct (epoch_metrics_total tr D in_size hidden_size out_size s0 G Hok)
    as (m & G1 & Hm & Htop).
  assert (ms !! 0 = Some m) as Hm0.
  { cbn [history] in Hms. rewrite Hm in Hms. cbn in Hms.
    destruct (history tr D (opt_step tr s0) G1 n); [|done]. by injection Hms as <-. }
  exists ms, m. split; [done|]. split; [done|]. split; [done|].
  destruct (num_lt (PyInt 0) (m_val_acc m)) eqn:Hlt.
  - assert (∃ st, train_loop tr D s0 G (S n) = Ret st) as [st Hst].
    { unfold train_loop. cbn [seq foldR].
      rewrite (epoch_unfold tr D (mkLoop s0 G (PyInt 0, PyInt 0) []) 0 m G1 Hm).
      cbn [ls_best ls_opt ls_printed].
      assert (num_lt (PyInt 0, PyInt 0).1 (m_val_acc m) = true) as Hlt' by done.
      rewrite (track_best_true _ _ Hlt'). cbn [fst snd item].
      rewrite decide_True by done. cbn [mbind run_bind mret run_ret].
      apply (loop_tail_total tr D in_size hidden_size out_size); cbn [ls_graph ls_best].
      - by eapply loop_inputs_ok_same_topology.
      - by eexists _, _. }
    apply num_lt_int_0 in Hlt as (x & Hx & Hpos). split; split.
    + intros _. by exists x.
    + intros _. by exists st.
    + rewrite Hst. done.
    + intros Hle. specialize (Hle x Hx). by apply Qclt_not_le in Hpos.
  - pose proof (first_print tr D s0 G n m G1 Hm Hlt) as Hraise. split; split.
    + intros [st Hst]. rewrite Hst in Hraise. done.
    + intros Hx. apply num_lt_int_0 in Hx. congruence.
    + intros _ x Hx. apply Qcnot_lt_le. intros Hpos.
      assert (num_lt (PyInt 0) (m_val_acc m) = true) as Ht
        by (apply num_lt_int_0; by exists x).
      congruence.
    + done.
Qed.

Lemma X16_loop_outcome_witness :
  ∃ ms m, history (frozen citing_model) citing_data () citing 100 = OK ms ∧
    length ms = 100 ∧ ms !! 0 = Some m ∧
    ((∃ st, train_loop (frozen citing_model) citing_data () citing 100 = Ret st) ↔
       ∃ x, m_val_acc m = Num x ∧ (0 < x)%Qc) ∧
    (train_loop (frozen citing_model) citing_data () citing 100 = Raise AttributeError ↔
       ∀ x, m_val_acc m = Num x → (x ≤ 0)%Qc).
Proof.
  apply (X16_loop_outcome (frozen citing_model) citing_data 1 1 1 () citing 100).
  - split; [by_compute|]. split; [by_compute|]. split; [by_compute|].
    split; [intros []; by_compute|]. split; [lia|]. split.
    + exists 3. split; [by_compute|]. split; [reflexivity|].
      repeat constructor; simpl; lia.
    + apply Forall_cons. split; [|constructor].
      intros z Hz. simpl in Hz. injection Hz as <-. left. simpl. lia.
  - lia.
Defined.

(** ** Cell 22 feeding the loop *)

Lemma concat_singletons_length (M : sparse) :
  Forall (λ r, length r = 1) M → length (concat M) = length M.
Proof.
  induction 1 as [|r M Hr _ IH]; [done|].
  simpl. rewrite length_app, Hr, IH. done.
Qed.

Lemma remap_selected c : c ∈ c_selected → (0 ≤ remap c < 3)%Z.
Proof.
  unfold c_selected. intros Hsel.
  assert (c = 0 ∨ c = 11 ∨ c = 13)%Z as [-> | [-> | ->]].
  { repeat (apply elem_of_cons in Hsel as [Hsel|Hsel]; [by eauto|]).
    by apply elem_of_nil in Hsel. }
  all: by vm_compute.
Qed.

(** X18: the labels and splits of cell 22 are what the loop of cell 28
    needs, provided every paper has exactly one stored conference and the
    graph has as many papers as PvsC has rows: every split index is a
    paper with a label, every training label is one of the three classes,
    and so, with a three-class model on a valid graph, every epoch computes
    its metrics without an IndexError. *)
Theorem X18_labels_fit_the_loop {St} (tr : trainer St) permutation PvsC n_conf st
    in_size hidden_size G :
  (∀ l, permutation l ≡ₚ l) →
  Forall (λ r, length r = 1) PvsC →
  cell22 permutation PvsC n_conf = Some st →
  graph_wf G → NoDup (etypes G) → all_destinations G → "paper" ∈ ntypes G →
  num_nodes G !! "paper" = Some (length PvsC) →
  (∀ s, model_ok G in_size hidden_size 3 (model_of tr s)) →
  loop_inputs_ok tr (dataset_of st) in_size hidden_size 3 G ∧
  ∀ s0 n, ∃ ms, history tr (dataset_of st) s0 G n = OK ms ∧ length ms = n.
Proof.
  intros Hperm Hone Hst Hwf Hnd Hdst Hpaper Hn Hmodel.
  assert (loop_inputs_ok tr (dataset_of st) in_size hidden_size 3 G) as Hok.
  { rewrite cell22_eq in Hst. injection Hst as <-.
    unfold dataset_of, loop_inputs_ok.
    cbn [st_labels st_train_idx st_val_idx st_test_idx labels train_idx val_idx test_idx].
    split; [done|]. split; [done|]. split; [done|]. split; [done|]. split; [lia|].
    split.
    - exists (length PvsC). split; [done|]. split; [done|].
      apply Forall_forall. intros i Hi.
      apply (split_indices_in_pid _ _ _ Hperm), elem_of_pid_of in Hi
        as (r & c & Hr & _ & _).
      apply lookup_lt_Some in Hr.
      by rewrite length_map, (concat_singletons_length _ Hone).
    - apply Forall_forall. intros i Hi z Hz.
      assert (i ∈ take 800 (permutation (pid_of PvsC))
                  ++ take 100 (drop 800 (permutation (pid_of PvsC)))
                  ++ drop 900 (permutation (pid_of PvsC))) as Hin
        by (apply elem_of_app; by left).
      apply (split_indices_in_pid _ _ _ Hperm), elem_of_pid_of in Hin
        as (r & c & Hr & Hc & Hsel).
      pose proof (Forall_lookup_1 _ _ _ _ Hone Hr) as Hlen.
      destruct r as [|c0 [|? ?]]; try done.
      apply list_elem_of_singleton in Hc. subst c0.
      rewrite list_lookup_fmap, (concat_singletons_lookup _ _ _ Hone Hr) in Hz.
      injection Hz as <-. left. by apply remap_selected. }
  split; [done|]. intros s0 n. by eapply history_total.
Qed.

Lemma X18_labels_fit_the_loop_witness :
  loop_inputs_ok (frozen citing_model3) (dataset_of cell22_three) 1 1 3 citing ∧
  ∀ s0 n, ∃ ms, history (frozen citing_model3) (dataset_of cell22_three) s0 citing n
                = OK ms ∧ length ms = n.
Proof.
  apply (X18_labels_fit_the_loop (frozen citing_model3) reverse [[0]; [11]; [13]]%Z 14).
  - intros l. apply reverse_Permutation.
  - by_compute.
  - apply cell22_eq.
  - by_compute.
  - by_compute.
  - by_compute.
  - by_compute.
  - reflexivity.
  - intros []. by_compute.
Defined.
